(** * Microlensing.py: the analytic point-lens model

    A shallow embedding of the numeric functions of [Microlensing.py]
    ([EinsteinRadius], [EinsteinCrossTime], [Y], [X], [Magnification],
    [X_ext_source] and the numeric part of [run]) and the properties of
    them that the specification states.

    Number model.  The program computes with NumPy [float64] values.  They
    are embedded as real numbers extended with the three IEEE special
    values the program can produce: [PInf], [NInf] and [NaN].  Arithmetic on
    finite values is exact real arithmetic: rounding, overflow, underflow
    and the sign of zero are not modelled (every zero is the positive
    zero).  The special values follow IEEE 754 as NumPy applies it: a
    division by zero or an invalid operation is reported by a warning and
    the operation returns an infinity or NaN; no exception is raised.  None
    of the embedded functions contains a [raise], so each is a total
    function into [npfloat].

    Two properties of the program depend on what the exact model leaves
    out, and for them a second embedding stands beside the first:
    [Magnification64] is [Magnification] in IEEE binary64 arithmetic
    (the primitive floats), and [X_ext_source_at] is [X_ext_source] over an
    angle grid that ends at a given value, used with the float64 value of
    [2*np.pi]. *)

From Stdlib Require Import Reals Lra Lia List.
From Stdlib Require String Ascii DecimalString.
From Stdlib Require PrimFloat FloatOps SpecFloat.
Import ListNotations.
Import String.StringSyntax.
Delimit Scope string_scope with string.
Bind Scope string_scope with String.string.
Import PrimFloat.PrimFloatNotationsInternalA.
Number Notation PrimFloat.float PrimFloat.parser PrimFloat.printer
  : float_scope.

Local Open Scope R_scope.

(** ** The value type *)

Inductive npfloat : Type :=
| Fin (x : R)
| PInf
| NInf
| NaN.

(** Sign of a real, as a [comparison] with zero. *)
Definition Rsign (x : R) : comparison :=
  match total_order_T x 0 with
  | inleft (left _) => Lt
  | inleft (right _) => Eq
  | inright _ => Gt
  end.

(** Sign of a value that is not NaN. *)
Definition fsign (x : npfloat) : comparison :=
  match x with
  | Fin a => Rsign a
  | PInf => Gt
  | NInf => Lt
  | NaN => Eq
  end.

Definition sign_mul (s t : comparison) : comparison :=
  match s, t with
  | Eq, _ | _, Eq => Eq
  | Gt, Gt | Lt, Lt => Gt
  | Gt, Lt | Lt, Gt => Lt
  end.

(** The infinity of a sign; the sign of zero gives NaN (as in 0 * inf and
    0 / 0). *)
Definition inf_of (s : comparison) : npfloat :=
  match s with
  | Gt => PInf
  | Lt => NInf
  | Eq => NaN
  end.

Definition fneg (x : npfloat) : npfloat :=
  match x with
  | Fin a => Fin (- a)
  | PInf => NInf
  | NInf => PInf
  | NaN => NaN
  end.

Definition fadd (x y : npfloat) : npfloat :=
  match x, y with
  | NaN, _ | _, NaN => NaN
  | Fin a, Fin b => Fin (a + b)
  | PInf, NInf | NInf, PInf => NaN
  | PInf, _ | _, PInf => PInf
  | NInf, _ | _, NInf => NInf
  end.

Definition fsub (x y : npfloat) : npfloat := fadd x (fneg y).

Definition fmul (x y : npfloat) : npfloat :=
  match x, y with
  | NaN, _ | _, NaN => NaN
  | Fin a, Fin b => Fin (a * b)
  | _, _ => inf_of (sign_mul (fsign x) (fsign y))
  end.

(** Division.  A finite value over zero is an infinity of the sign of the
    numerator, 0/0 is NaN, a finite value over an infinity is zero. *)
Definition fdiv (x y : npfloat) : npfloat :=
  match x, y with
  | NaN, _ | _, NaN => NaN
  | Fin a, Fin b =>
      if Req_dec_T b 0 then inf_of (Rsign a) else Fin (a / b)
  | Fin _, _ => Fin 0
  | _, Fin b =>
      if Req_dec_T b 0 then x else inf_of (sign_mul (fsign x) (Rsign b))
  | _, _ => NaN
  end.

(** [np.sqrt]: NaN on a negative argument. *)
Definition fsqrt (x : npfloat) : npfloat :=
  match x with
  | Fin a => if Rlt_dec a 0 then NaN else Fin (sqrt a)
  | PInf => PInf
  | NInf | NaN => NaN
  end.

(** [np.cos] and [np.sin]: NaN on an infinity. *)
Definition fcos (x : npfloat) : npfloat :=
  match x with
  | Fin a => Fin (cos a)
  | _ => NaN
  end.

Definition fsin (x : npfloat) : npfloat :=
  match x with
  | Fin a => Fin (sin a)
  | _ => NaN
  end.

(** [x**2]. *)
Definition fsq (x : npfloat) : npfloat := fmul x x.

Declare Scope npfloat_scope.
Delimit Scope npfloat_scope with np.
Bind Scope npfloat_scope with npfloat.
Infix "+" := fadd : npfloat_scope.
Infix "-" := fsub : npfloat_scope.
Infix "*" := fmul : npfloat_scope.
Infix "/" := fdiv : npfloat_scope.

(** ** NumPy arrays

    One-dimensional arrays are lists.  A unary function applies
    elementwise; a binary operation between a scalar and an array
    broadcasts the scalar; between two arrays of the same length it applies
    pairwise (every pair of arrays the program combines has the same
    length). *)

Definition ndarray : Type := list npfloat.

Fixpoint zip_with (f : npfloat -> npfloat -> npfloat) (a b : ndarray)
  : ndarray :=
  match a, b with
  | x :: a', y :: b' => f x y :: zip_with f a' b'
  | _, _ => []
  end.

(** [np.ones(n)]. *)
Definition ones (n : nat) : ndarray := repeat (Fin 1) n.

(** [np.linspace(start, stop, num)] with the default [endpoint=True]:
    [step = (stop - start) / (num - 1)], the samples
    [arange(num) * step + start], and the last sample set to [stop]. *)
Definition linspace (start stop : R) (num : nat) : list R :=
  match num with
  | O => []
  | 1%nat => [start]
  | S m =>
      let step := (stop - start) / INR m in
      map (fun i => INR i * step + start) (seq 0 m) ++ [stop]
  end.

(** ** The model functions *)

(** [Y(t, t0, tE, u0)]: [t] is an array, [tE] stands for [tE.value]. *)
Definition Y (t : ndarray) (t0 tE u0 : npfloat) : ndarray * ndarray :=
  let y1 := map (fun ti => (ti - t0) / tE)%np t in
  let y2 := map (fun one => (one * u0)%np) (ones (length t)) in
  (y1, y2).

(** [X(y1, y2, plus)] on scalars. *)
Definition X (y1 y2 : npfloat) (plus : bool) : npfloat * npfloat :=
  let Q := (fsqrt (fsq y1 + fsq y2 + Fin 4) / fsqrt (fsq y1 + fsq y2))%np in
  if plus then
    ((Fin 0.5 * (Fin 1 + Q) * y1)%np, (Fin 0.5 * (Fin 1 + Q) * y2)%np)
  else
    ((Fin 0.5 * (Fin 1 - Q) * y1)%np, (Fin 0.5 * (Fin 1 - Q) * y2)%np).

(** [Magnification(y1, y2, s_flux)] on scalars. *)
Definition Magnification (y1 y2 s_flux : npfloat) : npfloat :=
  let y := fsqrt (fsq y1 + fsq y2)%np in
  (s_flux * (fsq y + Fin 2) / y / fsqrt (fsq y + Fin 4))%np.

(** [X] and [Magnification] applied to arrays, as [run] does for the dense
    series: every operation is elementwise, so the result at an index is
    the scalar function at that index. *)
Definition X_arr (y1 y2 : ndarray) (plus : bool) : ndarray * ndarray :=
  let Q := zip_with fdiv
             (map fsqrt (map (fun s => s + Fin 4)%np
                             (zip_with fadd (map fsq y1) (map fsq y2))))
             (map fsqrt (zip_with fadd (map fsq y1) (map fsq y2))) in
  if plus then
    (zip_with fmul (map (fun q => Fin 0.5 * (Fin 1 + q))%np Q) y1,
     zip_with fmul (map (fun q => Fin 0.5 * (Fin 1 + q))%np Q) y2)
  else
    (zip_with fmul (map (fun q => Fin 0.5 * (Fin 1 - q))%np Q) y1,
     zip_with fmul (map (fun q => Fin 0.5 * (Fin 1 - q))%np Q) y2).

Definition Magnification_arr (y1 y2 : ndarray) (s_flux : npfloat)
  : ndarray :=
  let y := map fsqrt (zip_with fadd (map fsq y1) (map fsq y2)) in
  zip_with fdiv
    (zip_with fdiv
       (map (fun s => s_flux * (s + Fin 2))%np (map fsq y)) y)
    (map fsqrt (map (fun s => s + Fin 4)%np (map fsq y))).

(** The angle grid of [X_ext_source]: [np.linspace(0.0, 2*np.pi, 360)]. *)
Definition phi_grid : list R := linspace 0 (2 * PI) 360.

(** [X_ext_source(y1, y2, r, plus)].  [y1], [y2] and [r] are scalars (in
    [run] the centre is an array of length one, which broadcasts against
    the 360 angles like a scalar). *)
Definition X_ext_source (y1 y2 r : npfloat) (plus : bool)
  : ndarray * ndarray :=
  let phi := map Fin phi_grid in
  let dy1 := map (fun c => r * c)%np (map fcos phi) in
  let dy2 := map (fun s => r * s)%np (map fsin phi) in
  let yy1 := map (fun d => y1 + d)%np dy1 in
  let yy2 := map (fun d => y2 + d)%np dy2 in
  let Q := zip_with fdiv
             (map fsqrt (map (fun s => s + Fin 4)%np
                             (zip_with fadd (map fsq yy1) (map fsq yy2))))
             (map fsqrt (zip_with fadd (map fsq yy1) (map fsq yy2))) in
  if plus then
    (zip_with fmul (map (fun q => Fin 0.5 * (Fin 1 + q))%np Q) yy1,
     zip_with fmul (map (fun q => Fin 0.5 * (Fin 1 + q))%np Q) yy2)
  else
    (zip_with fmul (map (fun q => Fin 0.5 * (Fin 1 - q))%np Q) yy1,
     zip_with fmul (map (fun q => Fin 0.5 * (Fin 1 - q))%np Q) yy2).

(** ** The same functions in float64

    [Magnification] in IEEE binary64 arithmetic, round to nearest even:
    every operation of the source is the primitive float operation, in
    the order of the source; [x**2] is the product [x * x] (NumPy's
    square). *)
Definition Magnification64 (y1 y2 s_flux : PrimFloat.float)
  : PrimFloat.float :=
  let y := PrimFloat.sqrt
             (PrimFloat.add (PrimFloat.mul y1 y1) (PrimFloat.mul y2 y2)) in
  PrimFloat.div
    (PrimFloat.div
       (PrimFloat.mul s_flux (PrimFloat.add (PrimFloat.mul y y) 2%float))
       y)
    (PrimFloat.sqrt (PrimFloat.add (PrimFloat.mul y y) 4%float)).

(** The value of [np.pi]: the float64 nearest to pi,
    [0x1.921fb54442d18p+1 = 7074237752028440 * 2^-51]. *)
Definition np_pi : R := 7074237752028440 / 2251799813685248.

(** [X_ext_source] with the angle grid [np.linspace(0.0, two_pi, 360)]:
    the body of [X_ext_source], the last angle being a parameter.  The
    program's grid ends at the float64 value [2*np.pi], which is
    [2 * np_pi] exactly. *)
Definition X_ext_source_at (two_pi : R) (y1 y2 r : npfloat) (plus : bool)
  : ndarray * ndarray :=
  let phi := map Fin (linspace 0 two_pi 360) in
  let dy1 := map (fun c => r * c)%np (map fcos phi) in
  let dy2 := map (fun s => r * s)%np (map fsin phi) in
  let yy1 := map (fun d => y1 + d)%np dy1 in
  let yy2 := map (fun d => y2 + d)%np dy2 in
  let Q := zip_with fdiv
             (map fsqrt (map (fun s => s + Fin 4)%np
                             (zip_with fadd (map fsq yy1) (map fsq yy2))))
             (map fsqrt (zip_with fadd (map fsq yy1) (map fsq yy2))) in
  if plus then
    (zip_with fmul (map (fun q => Fin 0.5 * (Fin 1 + q))%np Q) yy1,
     zip_with fmul (map (fun q => Fin 0.5 * (Fin 1 + q))%np Q) yy2)
  else
    (zip_with fmul (map (fun q => Fin 0.5 * (Fin 1 - q))%np Q) yy1,
     zip_with fmul (map (fun q => Fin 0.5 * (Fin 1 - q))%np Q) yy2).

(** ** Lens geometry

    [astropy.constants] and [astropy.units] are not part of the
    repository.  The SI values of the constants the code reads from them
    are parameters of this section: [G] ([const.G]), [c] ([const.c]),
    [M_sun] ([const.M_sun]) and [kpc_m], the number of metres in one
    kiloparsec.  A quantity is embedded as its value; the unit it carries is
    named in the comments, and each [.to(unit)] is the multiplication by
    the conversion factor that astropy applies. *)

(** [np.rad2deg(x)]. *)
Definition rad2deg (x : R) : R := x * (180 / PI).

(** Arc seconds to radians: [theta_E.to('radian')]. *)
Definition arcsec_to_radian (x : npfloat) : npfloat :=
  (x * Fin (PI / (180 * 3600)))%np.

(** Seconds to days: [.to('day')]. *)
Definition s_to_day (x : npfloat) : npfloat := (x * Fin (/ 86400))%np.

(** The conversion factor [aconv] from radians to arc seconds. *)
Definition aconv : R := rad2deg 1 * 3600.

Section LensGeometry.

Variables G c M_sun kpc_m : R.

(** Metres to kiloparsecs: [.to('kpc')]. *)
Definition m_to_kpc (x : npfloat) : npfloat := (x * Fin (/ kpc_m))%np.

(** Kiloparsecs to kilometres: [.to('km')]. *)
Definition kpc_to_km (x : npfloat) : npfloat :=
  (x * Fin (kpc_m / 1000))%np.

(** The gravitational length 4 G M / c^2 of [m] solar masses, in kpc. *)
Definition grav_kpc (m : R) : R :=
  4 * (G * (m * M_sun) / c / c * / kpc_m).

(** [EinsteinRadius(l_mass, ds, dl)], in arc seconds.  [ds] and [dl] are
    plain numbers (kpc); the final [/u.kpc] cancels the unit of the
    gravitational length and leaves the value unchanged. *)
Definition EinsteinRadius (l_mass ds dl : npfloat) : npfloat :=
  let mass := (l_mass * Fin M_sun)%np in
  let aconv := Fin (rad2deg 1 * 3600) in
  (fsqrt (Fin 4 * m_to_kpc (Fin G * mass / Fin c / Fin c)
          * (ds - dl) / dl / ds) * aconv)%np.

(** [EinsteinCrossTime(theta_E, dl, s_vel)], in days. *)
Definition EinsteinCrossTime (theta_E dl s_vel : npfloat) : npfloat :=
  s_to_day (kpc_to_km (arcsec_to_radian theta_E * dl) / s_vel)%np.

(** The numeric series of [run], up to the first plot: the parameters
    are those [ReadParams] returns. *)
Record series : Type := {
  s_theta_E : npfloat;
  s_tE : npfloat;
  s_t : ndarray;
  s_y : ndarray * ndarray;
  s_xp : ndarray * ndarray;
  s_xm : ndarray * ndarray;
  s_magn : ndarray
}.

Definition run (ds s_flux s_vel l_mass dl y0 t0 : npfloat) : series :=
  let theta_E := EinsteinRadius l_mass ds dl in
  let tE := EinsteinCrossTime theta_E dl s_vel in
  let t := map (fun g => t0 + Fin g * tE)%np (linspace (-8) 8 2000) in
  let y := Y t t0 tE y0 in
  {| s_theta_E := theta_E;
     s_tE := tE;
     s_t := t;
     s_y := y;
     s_xp := X_arr (fst y) (snd y) true;
     s_xm := X_arr (fst y) (snd y) false;
     s_magn := Magnification_arr (fst y) (snd y) s_flux |}.

End LensGeometry.

(** The values astropy ships (CODATA 2018, IAU 2015), used to evaluate the
  functions at concrete inputs. *)
Module Astropy.
Definition G : R := 66743 / 10 ^ 15.
Definition c : R := 299792458.
Definition M_sun : R := 1988409870698051 * 10 ^ 15.
Definition kpc_m : R := 30856775814913674 * 10 ^ 3.
End Astropy.

(** ** Quantities of the specification

    The closed forms and measures in which the properties are stated. *)

(** The closed form of the specification:
    [(y^2 + 2) / (y * sqrt (y^2 + 4))]. *)
Definition magnification_formula (y : R) : R :=
  (y * y + 2) / (y * sqrt (y * y + 4)).

(** The factor that [X] applies to the source position. *)
Definition image_factor (r : R) (plus : bool) : R :=
  let Q := sqrt (r * r + 4) / r in
  if plus then 0.5 * (1 + Q) else 0.5 * (1 - Q).

(** Euclidean norm of a pair of reals. *)
Definition norm (u v : R) : R := sqrt (u * u + v * v).

(** The offset source position at angle [phi]. *)
Definition boundary_point (y1 y2 r : npfloat) (phi : R)
  : npfloat * npfloat :=
  ((y1 + r * fcos (Fin phi))%np, (y2 + r * fsin (Fin phi))%np).

(** ** Reading the parameters

    [ReadParams] opens the file and parses it with [json.load]; the
    embedding starts from the parsed document.  A parsed JSON value is a
    number, an object (a Python [dict], embedded as its lookup function) or
    anything else (string, list, boolean, null), which a string subscript
    rejects with [TypeError]. *)

Local Unset Elimination Schemes.

Inductive pyobj : Type :=
| PNum (x : npfloat)
| PDict (get : String.string -> option pyobj)
| POther.

Local Set Elimination Schemes.

Inductive pyerr : Type :=
| KeyError (key : String.string)
| TypeError.

Inductive result (A : Type) : Type :=
| Ok (a : A)
| Raise (e : pyerr).

Arguments Ok {A} a.
Arguments Raise {A} e.

Definition bind {A B : Type} (r : result A) (k : A -> result B)
  : result B :=
  match r with
  | Ok a => k a
  | Raise e => Raise e
  end.

(** [o[key]] for a string key. *)
Definition subscript (o : pyobj) (key : String.string) : result pyobj :=
  match o with
  | PDict get =>
      match get key with
      | Some v => Ok v
      | None => Raise (KeyError key)
      end
  | _ => Raise TypeError
  end.

(** [s[section][key]]. *)
Definition subscript2 (s : pyobj) (section key : String.string)
  : result pyobj :=
  bind (subscript s section) (fun o => subscript o key).

(** The tuple [ReadParams] returns:
    [(ds, s_flux, s_vel, l_mass, dl, u0, t0)]. *)
Definition params : Type :=
  (pyobj * pyobj * pyobj * pyobj * pyobj * pyobj * pyobj)%type.

(** [ReadParams], from the parsed document [s] on. *)
Definition ReadParams (s : pyobj) : result params :=
  bind (subscript2 s "point source" "Ds") (fun ds =>
  bind (subscript2 s "point source" "flux") (fun s_flux =>
  bind (subscript2 s "point source" "velocity") (fun s_vel =>
  bind (subscript2 s "point lens" "mass") (fun l_mass =>
  bind (subscript2 s "point lens" "Dl") (fun dl =>
  bind (subscript2 s "point lens" "impact parameter") (fun u0 =>
  bind (subscript2 s "point lens" "t0") (fun t0 =>
  Ok (ds, s_flux, s_vel, l_mass, dl, u0, t0)))))))).

(** ** Creating the output directory

    [CreateDir] talks to the user and to the shell.  Its inputs are
    whether the path exists ([os.path.exists]) and the lines the user types
    ([input]); its effect is the list of events below.  When the lines run
    out, [input] raises [EOFError]. *)

Inductive io_event : Type :=
| Ask (prompt : String.string)
| Shell (cmd : String.string)
| Print (text : String.string).

Definition newline : String.string :=
  String.String (Ascii.ascii_of_nat 10) String.EmptyString.

(** ["No path %s. Do you want to create path? (y/n) \n" % save_dir]. *)
Definition create_prompt (save_dir : String.string) : String.string :=
  String.append "No path "
    (String.append save_dir
       (String.append ". Do you want to create path? (y/n) " newline)).

(** ["mkdir -p %s" % save_dir]. *)
Definition mkdir_cmd (save_dir : String.string) : String.string :=
  String.append "mkdir -p " save_dir.

(** How a call ends: it returns, leaving the lines not yet read, or
    [input] raises [EOFError]. *)
Inductive ending : Type :=
| Returned (unread : list String.string)
| EOFError.

(** The [while key] loop: one prompt for each line read. *)
Fixpoint CreateDir_loop (save_dir : String.string)
         (answers : list String.string) : list io_event * ending :=
  match answers with
  | [] => ([Ask (create_prompt save_dir)], EOFError)
  | ans :: rest =>
      if String.eqb ans "y" then
        ([Ask (create_prompt save_dir); Shell (mkdir_cmd save_dir)],
         Returned rest)
      else if String.eqb ans "n" then
        ([Ask (create_prompt save_dir); Print "Exit"], Returned rest)
      else
        let (ev, e) := CreateDir_loop save_dir rest in
        (Ask (create_prompt save_dir) :: ev, e)
  end.

(** [CreateDir(save_dir)]. *)
Definition CreateDir (path_exists : bool) (save_dir : String.string)
           (answers : list String.string) : list io_event * ending :=
  if negb path_exists then CreateDir_loop save_dir answers
  else ([], Returned answers).

(** [Animation()]: [animation_exists] is [os.path.exists('animation.mp4')]. *)
Definition Animation (animation_exists : bool) : list io_event :=
  (if animation_exists then [Shell "rm animation.mp4"] else [])
  ++ [Shell "ffmpeg -framerate 20 -pattern_type glob -i 'images/*.png' -c:v libx264 -r 30 -pix_fmt yuv420p animation.mp4"].

(** ** Frames *)

(** ['{:03d}'.format(n)] for a frame number [n >= 0]: the decimal digits
    of [n], padded with zeros on the left to three characters. *)
Definition zfill (width : nat) (s : String.string) : String.string :=
  String.append
    (String.concat "" (repeat "0"%string (width - String.length s))) s.

Definition format_03d (n : nat) : String.string :=
  zfill 3 (DecimalString.NilZero.string_of_uint (Nat.to_uint n)).

(** The file [Plot] saves frame [n] to. *)
Definition frame_png (n : nat) : String.string :=
  String.append "images/" (String.append (format_03d n) ".png").

(** The only element of an array of length one. *)
Definition item (a : ndarray) : npfloat :=
  match a with
  | [x] => x
  | _ => NaN
  end.

(** What one iteration of the loop of [run] hands to [Plot]. *)
Record frame : Type := {
  f_n : nat;
  f_tt : npfloat;
  f_xp_e : ndarray * ndarray;
  f_xm_e : ndarray * ndarray;
  f_magn_ext : ndarray;
  f_png : String.string
}.

(** The loop [for tt in t_sparse] of [run], with the counter [n]; the loop
    variable is written [tt_].  The contours are taken over the grid that
    ends at the float64 value of [2*np.pi]. *)
Fixpoint frame_loop (t0 tE y0 s_flux : npfloat) (n : nat)
         (t_sparse : ndarray) : list frame :=
  match t_sparse with
  | [] => []
  | tt_ :: rest =>
      let n := S n in
      let y_ext := Y [tt_] t0 tE y0 in
      {| f_n := n;
         f_tt := tt_;
         f_xp_e := X_ext_source_at (2 * np_pi)
                     (item (fst y_ext)) (item (snd y_ext)) (Fin 0.05) true;
         f_xm_e := X_ext_source_at (2 * np_pi)
                     (item (fst y_ext)) (item (snd y_ext)) (Fin 0.05) false;
         f_magn_ext := Magnification_arr (fst y_ext) (snd y_ext) s_flux;
         f_png := frame_png n |}
      :: frame_loop t0 tE y0 s_flux n rest
  end.

(** How the plotting part of [run] ends.  [Plot] saves with
    [plt.savefig('images/...')], which raises when the directory [images]
    does not exist; the exception leaves the loop at its first call. *)
Inductive plots : Type :=
| AllPlotted (frames : list frame)
| SaveFailed (first : frame)
| InputEnded.

Definition is_shell (e : io_event) : bool :=
  match e with
  | Shell _ => true
  | _ => false
  end.

(** The plotting part of [run]: [CreateDir('images')], then the loop over
    [t_sparse = t0 + np.linspace(-2, 2, 100) * tE].  [path_exists] is
    whether [images] exists before the call, [mkdir_ok] whether the shell
    command creates it, [answers] the lines the user types. *)
Definition run_frames (G c M_sun kpc_m : R)
           (ds s_flux s_vel l_mass dl y0 t0 : npfloat)
           (path_exists mkdir_ok : bool) (answers : list String.string)
  : plots :=
  let theta_E := EinsteinRadius G c M_sun kpc_m l_mass ds dl in
  let tE := EinsteinCrossTime kpc_m theta_E dl s_vel in
  match CreateDir path_exists "images" answers with
  | (_, EOFError) => InputEnded
  | (events, Returned _) =>
      let images_exists :=
        (path_exists || (existsb is_shell events && mkdir_ok))%bool in
      let t_sparse :=
        map (fun g => t0 + Fin g * tE)%np (linspace (-2) 2 100) in
      match frame_loop t0 tE y0 s_flux 0 t_sparse with
      | [] => AllPlotted []
      | first :: rest =>
          if images_exists then AllPlotted (first :: rest)
          else SaveFailed first
      end
  end.

(** The frames that the loop of [run] hands to [Plot] when every call
    returns: 100 of them, numbered 1 to 100, the k-th for the k-th time of
    [t_sparse] and with the file name of its number. *)
Definition frames_ok (t0 tE : npfloat) (frames : list frame) : Prop :=
  length frames = 100%nat
  /\ map f_n frames = seq 1 100
  /\ map f_tt frames
     = map (fun g => t0 + Fin g * tE)%np (linspace (-2) 2 100)
  /\ map f_png frames = map frame_png (seq 1 100).

(** ** Auxiliary definitions for the properties of the collaborators *)

(** The character of a decimal digit. *)
Definition digit (d : nat) : Ascii.ascii := Ascii.ascii_of_nat (48 + d).

Definition three_digits (n : nat) : String.string :=
  String.String (digit (n / 100))
    (String.String (digit (n / 10 mod 10))
       (String.String (digit (n mod 10)) String.EmptyString)).

(** Equality of two comparisons, as a boolean. *)
Definition same_comparison (a b : comparison) : bool :=
  match a, b with
  | Eq, Eq | Lt, Lt | Gt, Gt => true
  | _, _ => false
  end.

(** A line that is neither "y" nor "n". *)
Definition undecided (ans : String.string) : Prop :=
  ans <> "y"%string /\ ans <> "n"%string.

(** A complete document: the parameters of the specification's scenario. *)
Definition example_document : pyobj :=
  PDict (fun k =>
    if String.eqb k "point source" then
      Some (PDict (fun k' =>
        if String.eqb k' "Ds" then Some (PNum (Fin 8))
        else if String.eqb k' "flux" then Some (PNum (Fin 1))
        else if String.eqb k' "velocity" then Some (PNum (Fin 200))
        else None))
    else if String.eqb k "point lens" then
      Some (PDict (fun k' =>
        if String.eqb k' "mass" then Some (PNum (Fin 0.5))
        else if String.eqb k' "Dl" then Some (PNum (Fin 4))
        else if String.eqb k' "impact parameter" then Some (PNum (Fin 0.1))
        else if String.eqb k' "t0" then Some (PNum (Fin 0))
        else None))
    else None).

(** A document with both sections and every key but "flux". *)
Definition example_source_without_flux : pyobj :=
  PDict (fun k =>
    if String.eqb k "point source" then
      Some (PDict (fun k' =>
        if String.eqb k' "Ds" then Some (PNum (Fin 8))
        else if String.eqb k' "velocity" then Some (PNum (Fin 200))
        else None))
    else if String.eqb k "point lens" then
      Some (PDict (fun k' =>
        if String.eqb k' "mass" then Some (PNum (Fin 0.5))
        else if String.eqb k' "Dl" then Some (PNum (Fin 4))
        else if String.eqb k' "impact parameter" then Some (PNum (Fin 0.1))
        else if String.eqb k' "t0" then Some (PNum (Fin 0))
        else None))
    else None).

(** * Properties *)

(** ** Arithmetic on finite values *)

Lemma fsq_Fin (a : R) : fsq (Fin a) = Fin (a * a).
Proof. reflexivity. Qed.

Lemma fadd_Fin (a b : R) : (Fin a + Fin b)%np = Fin (a + b).
Proof. reflexivity. Qed.

Lemma fsub_Fin (a b : R) : (Fin a - Fin b)%np = Fin (a - b).
Proof. reflexivity. Qed.

Lemma fmul_Fin (a b : R) : (Fin a * Fin b)%np = Fin (a * b).
Proof. reflexivity. Qed.

Lemma fsqrt_Fin (a : R) : 0 <= a -> fsqrt (Fin a) = Fin (sqrt a).
Proof.
  intros Ha. unfold fsqrt.
  destruct (Rlt_dec a 0) as [Hlt | _]; [lra | reflexivity].
Qed.

Lemma fsqrt_neg (a : R) : a < 0 -> fsqrt (Fin a) = NaN.
Proof.
  intros Ha. unfold fsqrt.
  destruct (Rlt_dec a 0) as [_ | Hge]; [reflexivity | lra].
Qed.

Lemma fdiv_Fin (a b : R) : b <> 0 -> (Fin a / Fin b)%np = Fin (a / b).
Proof.
  intros Hb. unfold fdiv.
  destruct (Req_dec_T b 0) as [E | _]; [contradiction | reflexivity].
Qed.

Lemma fdiv_zero (a : R) : (Fin a / Fin 0)%np = inf_of (Rsign a).
Proof.
  unfold fdiv.
  destruct (Req_dec_T 0 0) as [_ | N]; [reflexivity | lra].
Qed.

Lemma Rsign_pos (a : R) : 0 < a -> Rsign a = Gt.
Proof.
  intros Ha. unfold Rsign.
  destruct (total_order_T a 0) as [[H | H] | H]; try lra; reflexivity.
Qed.

Lemma Rsign_neg (a : R) : a < 0 -> Rsign a = Lt.
Proof.
  intros Ha. unfold Rsign.
  destruct (total_order_T a 0) as [[H | H] | H]; try lra; reflexivity.
Qed.

Lemma Rsign_zero : Rsign 0 = Eq.
Proof.
  unfold Rsign.
  destruct (total_order_T 0 0) as [[H | H] | H]; try lra; reflexivity.
Qed.

Lemma half_eq : 0.5 = 1 / 2.
Proof. lra. Qed.

Lemma sum_sq_nonneg (a b : R) : 0 <= a * a + b * b.
Proof. nra. Qed.

Lemma sqrt_plus4_pos (s : R) : 0 <= s -> 0 < sqrt (s + 4).
Proof. intros Hs. apply sqrt_lt_R0. lra. Qed.

(** ** Elementwise application *)

(** The array form of [Magnification] is the scalar form at each index. *)
Lemma Magnification_arr_pointwise (y1 y2 : ndarray) (s_flux : npfloat) :
  Magnification_arr y1 y2 s_flux
  = zip_with (fun a b => Magnification a b s_flux) y1 y2.
Proof.
  unfold Magnification_arr. revert y2.
  induction y1 as [| a y1 IH]; intros [| b y2]; simpl; try reflexivity.
  rewrite IH. reflexivity.
Qed.

(** The array form of [X] is the scalar form at each index. *)
Lemma X_arr_pointwise (y1 y2 : ndarray) (plus : bool) :
  X_arr y1 y2 plus
  = (zip_with (fun a b => fst (X a b plus)) y1 y2,
     zip_with (fun a b => snd (X a b plus)) y1 y2).
Proof.
  unfold X_arr. destruct plus.
  - f_equal; revert y2;
      induction y1 as [| a y1 IH]; intros [| b y2]; simpl;
      try reflexivity; rewrite IH; reflexivity.
  - f_equal; revert y2;
      induction y1 as [| a y1 IH]; intros [| b y2]; simpl;
      try reflexivity; rewrite IH; reflexivity.
Qed.

(** ** Magnification *)

(** [Magnification] at a finite position with separation [y > 0]. *)
Lemma Magnification_Fin (y1 y2 f : R) :
  0 < sqrt (y1 * y1 + y2 * y2) ->
  Magnification (Fin y1) (Fin y2) (Fin f)
  = Fin (f * magnification_formula (sqrt (y1 * y1 + y2 * y2))).
Proof.
  intros Hy. unfold Magnification, magnification_formula. cbv zeta.
  rewrite !fsq_Fin, fadd_Fin.
  rewrite fsqrt_Fin by apply sum_sq_nonneg.
  set (y := sqrt (y1 * y1 + y2 * y2)) in *.
  rewrite fsq_Fin, !fadd_Fin, fmul_Fin.
  assert (Hs : 0 < sqrt (y * y + 4)) by (apply sqrt_plus4_pos; nra).
  rewrite fdiv_Fin by lra.
  rewrite fsqrt_Fin by nra.
  rewrite fdiv_Fin by lra.
  f_equal. field. split; lra.
Qed.

(** [Y] on finite arguments with a crossing time that is not zero. *)
Lemma Y_Fin (ts : list R) (t0 tE u0 : R) :
  tE <> 0 ->
  Y (map Fin ts) (Fin t0) (Fin tE) (Fin u0)
  = (map (fun t => Fin ((t - t0) / tE)) ts, map (fun _ => Fin u0) ts).
Proof.
  intros HtE. unfold Y. f_equal.
  - rewrite map_map. apply map_ext. intros t.
    rewrite fsub_Fin, fdiv_Fin by exact HtE.
    reflexivity.
  - rewrite length_map. unfold ones.
    induction ts as [| t ts IH]; simpl; [reflexivity |].
    rewrite IH. f_equal. f_equal. lra.
Qed.

(** C1. For every source position (y1, y2) with y = sqrt(y1^2 + y2^2) > 0
    and every baseline flux f, [Magnification] returns
    f * (y^2 + 2) / (y * sqrt(y^2 + 4)); in particular at t = peakTime,
    where the trajectory gives y = impactParameter, the returned value is
    that formula at y = impactParameter. *)
Theorem C1_Magnification_closed_form :
  (forall y1 y2 f : R,
      0 < sqrt (y1 * y1 + y2 * y2) ->
      let y := sqrt (y1 * y1 + y2 * y2) in
      Magnification (Fin y1) (Fin y2) (Fin f)
      = Fin (f * ((y * y + 2) / (y * sqrt (y * y + 4)))))
  /\
  (forall t0 tE u0 f : R,
      tE <> 0 -> 0 < u0 ->
      let y := Y [Fin t0] (Fin t0) (Fin tE) (Fin u0) in
      Magnification_arr (fst y) (snd y) (Fin f)
      = [Fin (f * ((u0 * u0 + 2) / (u0 * sqrt (u0 * u0 + 4))))]).
Proof.
  split.
  - intros y1 y2 f Hy y. apply Magnification_Fin. exact Hy.
  - intros t0 tE u0 f HtE Hu0 y. subst y.
    change [Fin t0] with (map Fin [t0]).
    rewrite Y_Fin by exact HtE. simpl fst. simpl snd.
    rewrite Magnification_arr_pointwise. simpl.
    assert (E : sqrt ((t0 - t0) / tE * ((t0 - t0) / tE) + u0 * u0) = u0).
    { replace ((t0 - t0) / tE * ((t0 - t0) / tE) + u0 * u0)
        with (u0 * u0) by (field; exact HtE).
      apply sqrt_square. lra. }
    rewrite Magnification_Fin by (rewrite E; exact Hu0).
    rewrite E. reflexivity.
Qed.

(** With impact parameter 0.1, baseline flux 1 and a crossing time of 30
    days, the value at the peak is (0.01 + 2) / (0.1 * sqrt(0.01 + 4)). *)
Lemma C1_Magnification_closed_form_witness :
  Magnification (Fin 0) (Fin 0.1) (Fin 1)
  = Fin (1 * ((sqrt (0 * 0 + 0.1 * 0.1) * sqrt (0 * 0 + 0.1 * 0.1) + 2)
              / (sqrt (0 * 0 + 0.1 * 0.1)
                 * sqrt (sqrt (0 * 0 + 0.1 * 0.1)
                         * sqrt (0 * 0 + 0.1 * 0.1) + 4))))
  /\ Magnification_arr
       (fst (Y [Fin 0] (Fin 0) (Fin 30) (Fin 0.1)))
       (snd (Y [Fin 0] (Fin 0) (Fin 30) (Fin 0.1))) (Fin 1)
     = [Fin (1 * ((0.1 * 0.1 + 2) / (0.1 * sqrt (0.1 * 0.1 + 4))))].
Proof.
  split.
  - apply (proj1 C1_Magnification_closed_form 0 0.1 1).
    apply sqrt_lt_R0. lra.
  - apply (proj2 C1_Magnification_closed_form 0 30 0.1 1); lra.
Defined.

(** ** Point images *)

Lemma X_Fin (y1 y2 : R) (plus : bool) :
  0 < sqrt (y1 * y1 + y2 * y2) ->
  let k := image_factor (sqrt (y1 * y1 + y2 * y2)) plus in
  X (Fin y1) (Fin y2) plus = (Fin (k * y1), Fin (k * y2)).
Proof.
  intros Hr k. subst k. unfold image_factor.
  set (r := sqrt (y1 * y1 + y2 * y2)) in *.
  assert (Hrr : r * r = y1 * y1 + y2 * y2).
  { subst r. apply sqrt_sqrt. apply sum_sq_nonneg. }
  rewrite Hrr.
  unfold X. cbv zeta. rewrite !fsq_Fin, !fadd_Fin.
  rewrite (fsqrt_Fin (y1 * y1 + y2 * y2 + 4))
    by (pose proof (sum_sq_nonneg y1 y2); lra).
  rewrite (fsqrt_Fin (y1 * y1 + y2 * y2)) by apply sum_sq_nonneg.
  fold r. rewrite fdiv_Fin by lra.
  destruct plus; reflexivity.
Qed.

(** On the lens centre Q is +inf and inf * 0 is NaN. *)
Lemma X_origin (plus : bool) : X (Fin 0) (Fin 0) plus = (NaN, NaN).
Proof.
  unfold X. cbv zeta. rewrite !fsq_Fin, !fadd_Fin.
  replace (0 * 0 + 0 * 0) with 0 by lra.
  rewrite (fsqrt_Fin (0 + 4)) by lra.
  rewrite (fsqrt_Fin 0) by lra. rewrite sqrt_0, fdiv_zero.
  rewrite Rsign_pos by (apply sqrt_lt_R0; lra).
  destruct plus; cbn [inf_of fadd fsub fneg fmul fsign sign_mul];
    rewrite (Rsign_pos 0.5) by lra;
    cbn [inf_of fmul fsign sign_mul];
    rewrite Rsign_zero; reflexivity.
Qed.

(** C2. For every source position (y1, y2) with r = sqrt(y1^2 + y2^2) > 0,
    the point-image function with Q = sqrt(r^2 + 4) / r returns
    (0.5 (1 + Q) y1, 0.5 (1 + Q) y2) for the plus image and
    (0.5 (1 - Q) y1, 0.5 (1 - Q) y2) for the minus image. *)
Theorem C2_X_closed_form (y1 y2 : R) :
  0 < sqrt (y1 * y1 + y2 * y2) ->
  let r := sqrt (y1 * y1 + y2 * y2) in
  let Q := sqrt (r * r + 4) / r in
  X (Fin y1) (Fin y2) true
  = (Fin (0.5 * (1 + Q) * y1), Fin (0.5 * (1 + Q) * y2))
  /\ X (Fin y1) (Fin y2) false
     = (Fin (0.5 * (1 - Q) * y1), Fin (0.5 * (1 - Q) * y2)).
Proof.
  intros Hr r Q. split.
  - exact (X_Fin y1 y2 true Hr).
  - exact (X_Fin y1 y2 false Hr).
Qed.

Lemma C2_X_closed_form_witness :
  X (Fin 3) (Fin 4) true
  = (Fin (0.5
          * (1 + sqrt (sqrt (3 * 3 + 4 * 4) * sqrt (3 * 3 + 4 * 4) + 4)
                 / sqrt (3 * 3 + 4 * 4)) * 3),
     Fin (0.5
          * (1 + sqrt (sqrt (3 * 3 + 4 * 4) * sqrt (3 * 3 + 4 * 4) + 4)
                 / sqrt (3 * 3 + 4 * 4)) * 4))
  /\ X (Fin 3) (Fin 4) false
     = (Fin (0.5
             * (1 - sqrt (sqrt (3 * 3 + 4 * 4) * sqrt (3 * 3 + 4 * 4) + 4)
                    / sqrt (3 * 3 + 4 * 4)) * 3),
        Fin (0.5
             * (1 - sqrt (sqrt (3 * 3 + 4 * 4) * sqrt (3 * 3 + 4 * 4) + 4)
                    / sqrt (3 * 3 + 4 * 4)) * 4)).
Proof.
  apply (C2_X_closed_form 3 4). apply sqrt_lt_R0. lra.
Defined.

(** ** Source trajectory *)

(** C3. For every time t, peak time t0, nonzero crossing time tE and impact
    parameter u0, the trajectory is y1 = (t - t0) / tE and y2 = u0 at every
    time; at t = t0 it is y1 = 0 and y2 = u0. *)
Theorem C3_Y_trajectory (ts : list R) (t0 tE u0 : R) :
  tE <> 0 ->
  Y (map Fin ts) (Fin t0) (Fin tE) (Fin u0)
  = (map (fun t => Fin ((t - t0) / tE)) ts, map (fun _ => Fin u0) ts)
  /\ Y [Fin t0] (Fin t0) (Fin tE) (Fin u0) = ([Fin 0], [Fin u0]).
Proof.
  intros HtE. split.
  - apply Y_Fin. exact HtE.
  - change [Fin t0] with (map Fin [t0]).
    rewrite Y_Fin by exact HtE. simpl.
    do 3 f_equal. field. exact HtE.
Qed.

Lemma C3_Y_trajectory_witness :
  Y (map Fin [-30; 0; 15]) (Fin 0) (Fin 30) (Fin 0.1)
  = (map (fun t => Fin ((t - 0) / 30)) [-30; 0; 15],
     map (fun _ => Fin 0.1) [-30; 0; 15])
  /\ Y [Fin 0] (Fin 0) (Fin 30) (Fin 0.1) = ([Fin 0], [Fin 0.1]).
Proof.
  apply (C3_Y_trajectory [-30; 0; 15] 0 30 0.1). lra.
Defined.

(** ** Geometry of the two images *)

Lemma norm_scale (k u v : R) :
  0 <= k -> norm (k * u) (k * v) = k * norm u v.
Proof.
  intros Hk. unfold norm.
  replace (k * u * (k * u) + k * v * (k * v))
    with ((k * k) * (u * u + v * v)) by ring.
  rewrite sqrt_mult by (try apply sum_sq_nonneg; nra).
  rewrite sqrt_square by exact Hk. reflexivity.
Qed.

Lemma norm_scale_neg (k u v : R) :
  k <= 0 -> norm (k * u) (k * v) = - k * norm u v.
Proof.
  intros Hk. rewrite <- norm_scale by lra.
  unfold norm. f_equal. ring.
Qed.

(** For r > 0, s = sqrt (r^2 + 4) lies strictly between max(r, 2) and
    r + 2. *)
Lemma sqrt_plus4_bounds (r : R) :
  0 < r ->
  let s := sqrt (r * r + 4) in
  s * s = r * r + 4 /\ r < s /\ 2 < s /\ s < r + 2.
Proof.
  intros Hr s.
  assert (Hss : s * s = r * r + 4) by (apply sqrt_sqrt; nra).
  assert (Hs : 0 < s) by (apply sqrt_plus4_pos; nra).
  repeat split; try exact Hss; nra.
Qed.

(** C6 (as stated, refuted). The source at (7/12, 0) has r = 7/12, and its
    minus image is (-3/4, 0): farther from the origin than the source, and
    on the opposite side of the origin. *)
Lemma C6_minus_image_not_inside_r :
  X (Fin (7 / 12)) (Fin 0) false = (Fin (- (3 / 4)), Fin 0)
  /\ norm (7 / 12) 0 < norm (- (3 / 4)) 0.
Proof.
  assert (Er : sqrt (7 / 12 * (7 / 12) + 0 * 0) = 7 / 12).
  { replace (7 / 12 * (7 / 12) + 0 * 0) with (7 / 12 * (7 / 12)) by lra.
    apply sqrt_square. lra. }
  assert (Es : sqrt (7 / 12 * (7 / 12) + 4) = 25 / 12).
  { replace (7 / 12 * (7 / 12) + 4) with (25 / 12 * (25 / 12)) by lra.
    apply sqrt_square. lra. }
  split.
  - rewrite X_Fin by (rewrite Er; lra).
    unfold image_factor. rewrite Er, Es. f_equal; f_equal; lra.
  - unfold norm. rewrite Er.
    replace (- (3 / 4) * - (3 / 4) + 0 * 0) with (3 / 4 * (3 / 4)) by lra.
    rewrite sqrt_square by lra. lra.
Qed.

(** The image factors: the plus factor is (r + s) / (2 r) > 1, the minus
    factor is (r - s) / (2 r) < 0, where s = sqrt (r^2 + 4). *)
Lemma image_factor_plus (r : R) :
  0 < r -> image_factor r true * r = (r + sqrt (r * r + 4)) / 2.
Proof. intros Hr. unfold image_factor. rewrite half_eq. field. lra. Qed.

Lemma image_factor_minus (r : R) :
  0 < r -> image_factor r false * r = (r - sqrt (r * r + 4)) / 2.
Proof. intros Hr. unfold image_factor. rewrite half_eq. field. lra. Qed.

Lemma image_factor_plus_gt1 (r : R) : 0 < r -> 1 < image_factor r true.
Proof.
  intros Hr. pose proof (image_factor_plus r Hr) as E.
  destruct (sqrt_plus4_bounds r Hr) as (_ & Hrs & _ & _).
  nra.
Qed.

Lemma image_factor_minus_neg (r : R) : 0 < r -> image_factor r false < 0.
Proof.
  intros Hr. pose proof (image_factor_minus r Hr) as E.
  destruct (sqrt_plus4_bounds r Hr) as (_ & Hrs & _ & _).
  nra.
Qed.

(** C6 (amended). For every source position with r > 0 both images lie on
    the line through the origin and the source: the plus image is the
    source position times a factor above 1 (the same direction, and
    |x_plus| > r), the minus image is the source position times a negative
    factor (the opposite direction).  The plus image lies outside the unit
    circle and the minus image inside it, |x_plus| > 1 > |x_minus|, with
    |x_plus| * |x_minus| = 1; the minus image is closer to the origin than
    the source exactly when r^2 > 1/2. *)
Theorem C6_images_collinear_split_by_unit_circle (y1 y2 : R) :
  0 < norm y1 y2 ->
  let r := norm y1 y2 in
  exists kp km : R,
    X (Fin y1) (Fin y2) true = (Fin (kp * y1), Fin (kp * y2))
    /\ X (Fin y1) (Fin y2) false = (Fin (km * y1), Fin (km * y2))
    /\ 1 < kp /\ km < 0
    /\ r < norm (kp * y1) (kp * y2)
    /\ 1 < norm (kp * y1) (kp * y2)
    /\ norm (km * y1) (km * y2) < 1
    /\ norm (kp * y1) (kp * y2) * norm (km * y1) (km * y2) = 1
    /\ (norm (km * y1) (km * y2) < r <-> 1 / 2 < r * r).
Proof.
  intros Hr r.
  exists (image_factor r true), (image_factor r false).
  pose proof (image_factor_plus_gt1 r Hr) as Hkp.
  pose proof (image_factor_minus_neg r Hr) as Hkm.
  pose proof (image_factor_plus r Hr) as Ep.
  pose proof (image_factor_minus r Hr) as Em.
  destruct (sqrt_plus4_bounds r Hr) as (Hss & Hrs & H2s & Hsr).
  cbv zeta in Hss, Hrs, H2s, Hsr.
  set (s := sqrt (r * r + 4)) in *.
  rewrite norm_scale by lra. rewrite norm_scale_neg by lra. fold r.
  split; [exact (X_Fin y1 y2 true Hr) |].
  split; [exact (X_Fin y1 y2 false Hr) |].
  repeat split; try lra; try nra.
Qed.

Lemma C6_images_collinear_split_by_unit_circle_witness :
  exists kp km : R,
    X (Fin 3) (Fin 4) true = (Fin (kp * 3), Fin (kp * 4))
    /\ X (Fin 3) (Fin 4) false = (Fin (km * 3), Fin (km * 4))
    /\ 1 < kp /\ km < 0
    /\ norm 3 4 < norm (kp * 3) (kp * 4)
    /\ 1 < norm (kp * 3) (kp * 4)
    /\ norm (km * 3) (km * 4) < 1
    /\ norm (kp * 3) (kp * 4) * norm (km * 3) (km * 4) = 1
    /\ (norm (km * 3) (km * 4) < norm 3 4 <-> 1 / 2 < norm 3 4 * norm 3 4).
Proof.
  apply (C6_images_collinear_split_by_unit_circle 3 4).
  unfold norm. apply sqrt_lt_R0. lra.
Defined.

(** ** Monotonicity of the magnification *)

Lemma magnification_formula_pos (y : R) :
  0 < y -> 0 < magnification_formula y.
Proof.
  intros Hy. unfold magnification_formula.
  assert (Hs : 0 < sqrt (y * y + 4)) by (apply sqrt_plus4_pos; nra).
  apply Rdiv_lt_0_compat; nra.
Qed.

Lemma magnification_formula_decreasing (y y' : R) :
  0 < y -> y < y' ->
  magnification_formula y' < magnification_formula y.
Proof.
  intros Hy Hlt. unfold magnification_formula.
  assert (Hy' : 0 < y') by lra.
  destruct (sqrt_plus4_bounds y Hy) as (Hss & _ & Hs2 & _).
  destruct (sqrt_plus4_bounds y' Hy') as (Hss' & _ & Hs2' & _).
  cbv zeta in *.
  set (s := sqrt (y * y + 4)) in *.
  set (s' := sqrt (y' * y' + 4)) in *.
  assert (Hd : 0 < y * s) by nra.
  assert (Hd' : 0 < y' * s') by nra.
  (* cross-multiplied: (y'^2 + 2) (y s) < (y^2 + 2) (y' s') *)
  assert (Hcross : (y' * y' + 2) * (y * s) < (y * y + 2) * (y' * s')).
  { set (P := (y' * y' + 2) * (y * s)).
    set (Q := (y * y + 2) * (y' * s')).
    assert (HP : 0 < P) by (subst P; nra).
    assert (HQ : 0 < Q) by (subst Q; nra).
    assert (Hsq : P * P < Q * Q).
    { subst P Q.
      replace ((y' * y' + 2) * (y * s) * ((y' * y' + 2) * (y * s)))
        with ((y' * y' + 2) * (y' * y' + 2) * (y * y) * (s * s)) by ring.
      replace ((y * y + 2) * (y' * s') * ((y * y + 2) * (y' * s')))
        with ((y * y + 2) * (y * y + 2) * (y' * y') * (s' * s')) by ring.
      rewrite Hss, Hss'.
      assert (Ha : 0 < y * y) by nra.
      assert (Hab : y * y < y' * y') by nra.
      set (a := y * y) in *. set (b := y' * y') in *.
      nra. }
    nra. }
  apply (Rmult_lt_reg_r (y' * s')); [exact Hd' |].
  apply (Rmult_lt_reg_r (y * s)); [exact Hd |].
  replace ((y' * y' + 2) / (y' * s') * (y' * s') * (y * s))
    with ((y' * y' + 2) * (y * s)) by (field; split; lra).
  replace ((y * y + 2) / (y * s) * (y' * s') * (y * s))
    with ((y * y + 2) * (y' * s')) by (field; split; lra).
  exact Hcross.
Qed.

(** C8 (as stated, refuted). In float64 the magnification is not strictly
    decreasing.  With baseline flux 1 the separations y = 1e5 and
    y' = 1e6 both give exactly 1.0, so the value at y does not exceed the
    value at y'; and the neighbouring floats y = 0.0552 and
    y' = 0.055200000000000006 give 18.136635462306792 and
    18.136635462306796, the larger value at the larger separation. *)
Lemma C8_float64_ties_and_reversal :
  Magnification64 1e5 0 1 = 1%float
  /\ Magnification64 1e6 0 1 = 1%float
  /\ PrimFloat.ltb (Magnification64 1e6 0 1) (Magnification64 1e5 0 1)
     = false
  /\ PrimFloat.ltb (Magnification64 0x1.c432ca57a786cp-5 0 1)
                   (Magnification64 0x1.c432ca57a786dp-5 0 1)
     = true.
Proof. repeat split; vm_compute; reflexivity. Qed.

(** C8 (amended). For every fixed positive baseline flux f the closed form
    f * (y^2 + 2) / (y * sqrt (y^2 + 4)) that [Magnification] evaluates
    (its value in exact arithmetic at separation y > 0) is strictly
    decreasing in the separation y on (0, oo).  The float64
    values the program returns are not strictly decreasing: they tie where
    rounding absorbs the difference (y = 1e5 and y = 1e6 both give exactly
    the baseline 1.0) and two neighbouring floats can come out in the
    opposite order (y = 0.0552 and the next float above it). *)
Theorem C8_closed_form_decreasing_float64_not_strictly :
  (forall y1 y2 f : R,
      0 < norm y1 y2 ->
      Magnification (Fin y1) (Fin y2) (Fin f)
      = Fin (f * magnification_formula (norm y1 y2)))
  /\ (forall f y y' : R,
         0 < f -> 0 < y -> y < y' ->
         f * magnification_formula y' < f * magnification_formula y)
  /\ Magnification64 1e5 0 1 = Magnification64 1e6 0 1
  /\ PrimFloat.ltb (Magnification64 0x1.c432ca57a786cp-5 0 1)
                   (Magnification64 0x1.c432ca57a786dp-5 0 1)
     = true.
Proof.
  split; [| split; [| split; vm_compute; reflexivity]].
  - intros y1 y2 f Hy. apply Magnification_Fin. exact Hy.
  - intros f y y' Hf Hy Hlt.
    apply Rmult_lt_compat_l; [exact Hf |].
    apply magnification_formula_decreasing; assumption.
Qed.

Lemma C8_closed_form_decreasing_float64_not_strictly_witness :
  Magnification (Fin 3) (Fin 4) (Fin 1)
  = Fin (1 * magnification_formula (norm 3 4))
  /\ 1 * magnification_formula 2 < 1 * magnification_formula 1.
Proof.
  split.
  - apply (proj1 C8_closed_form_decreasing_float64_not_strictly 3 4 1).
    unfold norm. apply sqrt_lt_R0. lra.
  - apply (proj1 (proj2 C8_closed_form_decreasing_float64_not_strictly)
             1 1 2); lra.
Defined.

(** ** The source on the lens centre *)

Lemma Rsign_of_zero (x : R) : x = 0 -> Rsign x = Eq.
Proof. intros ->. apply Rsign_zero. Qed.

(** At y1 = y2 = 0 the separation is the zero [sqrt 0], and the function
    divides by it: the result is the infinity of the sign of the flux. *)
Lemma Magnification_origin (f : R) :
  Magnification (Fin 0) (Fin 0) (Fin f) = inf_of (Rsign f).
Proof.
  unfold Magnification. cbv zeta.
  rewrite !fsq_Fin, fadd_Fin.
  replace (0 * 0 + 0 * 0) with 0 by lra.
  rewrite fsqrt_Fin by lra. rewrite sqrt_0.
  rewrite fsq_Fin, !fadd_Fin, fmul_Fin, fdiv_zero.
  rewrite fsqrt_Fin by lra.
  assert (Hs : 0 < sqrt (0 * 0 + 4)) by (apply sqrt_lt_R0; lra).
  destruct (total_order_T f 0) as [[Hf | Hf] | Hf].
  - rewrite (Rsign_neg (f * (0 * 0 + 2))) by nra.
    rewrite (Rsign_neg f) by exact Hf. simpl.
    destruct (Req_dec_T (sqrt (0 * 0 + 4)) 0) as [E | _]; [lra |].
    rewrite Rsign_pos by exact Hs. reflexivity.
  - rewrite (Rsign_of_zero (f * (0 * 0 + 2))) by nra.
    rewrite (Rsign_of_zero f) by exact Hf. reflexivity.
  - rewrite (Rsign_pos (f * (0 * 0 + 2))) by nra.
    rewrite (Rsign_pos f) by exact Hf. simpl.
    destruct (Req_dec_T (sqrt (0 * 0 + 4)) 0) as [E | _]; [lra |].
    rewrite Rsign_pos by exact Hs. reflexivity.
Qed.

(** C5 (as stated, refuted). With baseline flux 0 the magnification of a
    source on the lens centre is NaN: the function computes 0 / 0 and
    returns the result. *)
Lemma C5_Magnification_origin_zero_flux_is_NaN :
  Magnification (Fin 0) (Fin 0) (Fin 0) = NaN.
Proof.
  rewrite Magnification_origin, Rsign_zero. reflexivity.
Qed.

(** C5 (amended). [Magnification] has no guard for a source on the lens
    centre; it returns the result of the division by zero: plus infinity
    when the baseline flux is positive, minus infinity when it is negative
    and NaN when it is zero. *)
Theorem C5_Magnification_origin_unguarded (f : R) :
  (0 < f -> Magnification (Fin 0) (Fin 0) (Fin f) = PInf)
  /\ (f < 0 -> Magnification (Fin 0) (Fin 0) (Fin f) = NInf)
  /\ (f = 0 -> Magnification (Fin 0) (Fin 0) (Fin f) = NaN).
Proof.
  rewrite Magnification_origin. repeat split; intros Hf.
  - rewrite Rsign_pos by exact Hf. reflexivity.
  - rewrite Rsign_neg by exact Hf. reflexivity.
  - rewrite Rsign_of_zero by exact Hf. reflexivity.
Qed.

Lemma C5_Magnification_origin_unguarded_witness :
  Magnification (Fin 0) (Fin 0) (Fin 1) = PInf
  /\ Magnification (Fin 0) (Fin 0) (Fin (-1)) = NInf
  /\ Magnification (Fin 0) (Fin 0) (Fin 0) = NaN.
Proof.
  repeat split.
  - apply (proj1 (C5_Magnification_origin_unguarded 1)). lra.
  - apply (proj1 (proj2 (C5_Magnification_origin_unguarded (-1)))). lra.
  - apply (proj2 (proj2 (C5_Magnification_origin_unguarded 0))).
    reflexivity.
Defined.

(** ** Einstein radius and crossing time *)

Section LensProperties.

Variables G c M_sun kpc_m : R.
Hypothesis G_pos : 0 < G.
Hypothesis c_pos : 0 < c.
Hypothesis M_sun_pos : 0 < M_sun.
Hypothesis kpc_m_pos : 0 < kpc_m.

Local Abbreviation gkpc := (grav_kpc G c M_sun kpc_m).

Lemma aconv_pos : 0 < aconv.
Proof.
  unfold aconv, rad2deg. pose proof PI_RGT_0 as Hpi.
  assert (0 < 180 / PI) by (apply Rdiv_lt_0_compat; lra).
  nra.
Qed.

Lemma grav_kpc_pos (m : R) : 0 < m -> 0 < gkpc m.
Proof.
  intros Hm. unfold grav_kpc.
  assert (H1 : 0 < G * (m * M_sun)) by
      (apply Rmult_lt_0_compat; [| apply Rmult_lt_0_compat]; assumption).
  assert (H2 : 0 < G * (m * M_sun) / c)
    by (apply Rdiv_lt_0_compat; assumption).
  assert (H3 : 0 < G * (m * M_sun) / c / c)
    by (apply Rdiv_lt_0_compat; assumption).
  assert (H4 : 0 < / kpc_m) by (apply Rinv_0_lt_compat; assumption).
  assert (H5 : 0 < G * (m * M_sun) / c / c * / kpc_m)
    by (apply Rmult_lt_0_compat; assumption).
  lra.
Qed.

Lemma grav_kpc_double (m : R) : gkpc (2 * m) = 2 * gkpc m.
Proof. unfold grav_kpc. field. split; lra. Qed.

(** The product under the square root, before the two divisions. *)
Lemma EinsteinRadius_unfold (m ds dl : R) :
  EinsteinRadius G c M_sun kpc_m (Fin m) (Fin ds) (Fin dl)
  = (fsqrt (Fin (gkpc m * (ds - dl)) / Fin dl / Fin ds)
     * Fin aconv)%np.
Proof.
  unfold EinsteinRadius, m_to_kpc, grav_kpc, aconv. cbv zeta.
  rewrite !fmul_Fin.
  rewrite !fdiv_Fin by lra.
  rewrite !fmul_Fin, fsub_Fin, !fmul_Fin.
  reflexivity.
Qed.

(** Both distances different from zero and a radicand that is not
    negative: the finite value of the formula. *)
Lemma EinsteinRadius_Fin (m ds dl : R) :
  dl <> 0 -> ds <> 0 ->
  0 <= gkpc m * (ds - dl) / dl / ds ->
  EinsteinRadius G c M_sun kpc_m (Fin m) (Fin ds) (Fin dl)
  = Fin (sqrt (gkpc m * (ds - dl) / dl / ds) * aconv).
Proof.
  intros Hdl Hds Hrad.
  rewrite EinsteinRadius_unfold.
  rewrite !fdiv_Fin by assumption.
  rewrite fsqrt_Fin by exact Hrad.
  apply fmul_Fin.
Qed.

(** A negative radicand: NaN. *)
Lemma EinsteinRadius_negative_radicand (m ds dl : R) :
  dl <> 0 -> ds <> 0 ->
  gkpc m * (ds - dl) / dl / ds < 0 ->
  EinsteinRadius G c M_sun kpc_m (Fin m) (Fin ds) (Fin dl) = NaN.
Proof.
  intros Hdl Hds Hrad.
  rewrite EinsteinRadius_unfold.
  rewrite !fdiv_Fin by assumption.
  rewrite fsqrt_neg by exact Hrad.
  reflexivity.
Qed.

(** Equal distances: the radicand is zero and so is the radius. *)
Lemma EinsteinRadius_equal_distances (m d : R) :
  d <> 0 ->
  EinsteinRadius G c M_sun kpc_m (Fin m) (Fin d) (Fin d) = Fin 0.
Proof.
  intros Hd.
  rewrite EinsteinRadius_Fin; try assumption.
  - replace (gkpc m * (d - d) / d / d) with 0 by (field; exact Hd).
    rewrite sqrt_0. f_equal. ring.
  - replace (gkpc m * (d - d) / d / d) with 0 by (field; exact Hd).
    lra.
Qed.

(** The lens at distance zero: the division by [dl] overflows to plus
    infinity, which the square root and the conversion keep. *)
Lemma EinsteinRadius_zero_lens_distance (m ds : R) :
  0 < m -> 0 < ds ->
  EinsteinRadius G c M_sun kpc_m (Fin m) (Fin ds) (Fin 0) = PInf.
Proof.
  intros Hm Hds.
  rewrite EinsteinRadius_unfold.
  rewrite fdiv_zero.
  pose proof (grav_kpc_pos m Hm) as Hg.
  rewrite Rsign_pos by nra. simpl.
  destruct (Req_dec_T ds 0) as [E | _]; [lra |].
  rewrite (Rsign_pos ds) by exact Hds. simpl.
  rewrite (Rsign_pos aconv) by apply aconv_pos. reflexivity.
Qed.

(** The crossing time on finite arguments with a velocity that is not
    zero. *)
Lemma EinsteinCrossTime_Fin (theta dl v : R) :
  v <> 0 ->
  EinsteinCrossTime kpc_m (Fin theta) (Fin dl) (Fin v)
  = Fin (theta * (PI / (180 * 3600)) * dl * (kpc_m / 1000) / v
         * / 86400).
Proof.
  intros Hv.
  unfold EinsteinCrossTime, s_to_day, kpc_to_km, arcsec_to_radian.
  rewrite !fmul_Fin. rewrite fdiv_Fin by exact Hv.
  apply fmul_Fin.
Qed.

(** C7. For all valid parameters (0 < lensDistance < sourceDistance,
    mass > 0, velocity > 0) the Einstein radius and the Einstein crossing
    time are strictly positive, and doubling the lens mass at fixed
    distances multiplies the Einstein radius by sqrt 2. *)
Theorem C7_lens_scale_positive_and_sqrt2 (m ds dl v : R) :
  0 < dl -> dl < ds -> 0 < m -> 0 < v ->
  exists theta tE : R,
    EinsteinRadius G c M_sun kpc_m (Fin m) (Fin ds) (Fin dl) = Fin theta
    /\ 0 < theta
    /\ EinsteinCrossTime kpc_m (Fin theta) (Fin dl) (Fin v) = Fin tE
    /\ 0 < tE
    /\ EinsteinRadius G c M_sun kpc_m (Fin (2 * m)) (Fin ds) (Fin dl)
       = Fin (sqrt 2 * theta).
Proof.
  intros Hdl Hlt Hm Hv.
  pose proof (grav_kpc_pos m Hm) as Hg.
  pose proof aconv_pos as Ha.
  pose proof PI_RGT_0 as Hpi.
  set (rad := gkpc m * (ds - dl) / dl / ds).
  assert (Hrad : 0 < rad).
  { subst rad. repeat apply Rdiv_lt_0_compat; try lra.
    apply Rmult_lt_0_compat; lra. }
  assert (Hsq : 0 < sqrt rad) by (apply sqrt_lt_R0; exact Hrad).
  exists (sqrt rad * aconv).
  exists (sqrt rad * aconv * (PI / (180 * 3600)) * dl * (kpc_m / 1000) / v
          * / 86400).
  assert (Htheta : 0 < sqrt rad * aconv)
    by (apply Rmult_lt_0_compat; assumption).
  repeat split.
  - apply EinsteinRadius_Fin; try lra. fold rad. lra.
  - exact Htheta.
  - apply EinsteinCrossTime_Fin. lra.
  - assert (H1 : 0 < PI / (180 * 3600)) by (apply Rdiv_lt_0_compat; lra).
    assert (H2 : 0 < kpc_m / 1000) by (apply Rdiv_lt_0_compat; lra).
    apply Rmult_lt_0_compat; [| lra].
    apply Rdiv_lt_0_compat; [| exact Hv].
    apply Rmult_lt_0_compat; [| exact H2].
    apply Rmult_lt_0_compat; [| exact Hdl].
    apply Rmult_lt_0_compat; [exact Htheta | exact H1].
  - assert (E : gkpc (2 * m) * (ds - dl) / dl / ds = 2 * rad).
    { rewrite grav_kpc_double. subst rad. field. split; lra. }
    rewrite EinsteinRadius_Fin by (rewrite ?E; lra).
    rewrite E. rewrite sqrt_mult by lra. f_equal. ring.
Qed.

(** ** Invalid distances *)

(** With a crossing time of zero every sampled time is the peak time and
    the trajectory divides 0 by 0. *)
Lemma Y_zero_crossing_time (grid : list R) (t0 u0 : R) :
  Y (map (fun g => Fin t0 + Fin g * Fin 0)%np grid) (Fin t0) (Fin 0) (Fin u0)
  = (map (fun _ => NaN) grid, map (fun _ => Fin u0) grid).
Proof.
  unfold Y. f_equal.
  - rewrite map_map. apply map_ext. intros g.
    rewrite fmul_Fin, fadd_Fin, fsub_Fin, fdiv_zero.
    rewrite Rsign_of_zero by ring. reflexivity.
  - rewrite length_map. unfold ones.
    induction grid as [| g grid IH]; simpl; [reflexivity |].
    rewrite IH. f_equal. f_equal. lra.
Qed.

Lemma Magnification_arr_NaN (grid : list R) (u0 f : R) :
  Magnification_arr (map (fun _ => NaN) grid) (map (fun _ => Fin u0) grid)
                    (Fin f)
  = map (fun _ => NaN) grid.
Proof.
  rewrite Magnification_arr_pointwise.
  induction grid as [| g grid IH]; simpl; [reflexivity |].
  rewrite IH. reflexivity.
Qed.

Lemma linspace_length (a b : R) (n : nat) : length (linspace a b n) = n.
Proof.
  destruct n as [| [| m]]; try reflexivity.
  unfold linspace. rewrite length_app, length_map, length_seq.
  simpl. lia.
Qed.

Lemma Forall_map_const {A B : Type} (b : B) (l : list A) :
  Forall (eq b) (map (fun _ => b) l).
Proof. induction l; simpl; constructor; auto. Qed.

(** The run with equal distances: radius and crossing time are zero, all
    2000 times are sampled, and every y1 and every magnification is NaN. *)
Lemma run_equal_distances (d f v m u0 t0 : R) :
  d <> 0 -> v <> 0 ->
  let s := run G c M_sun kpc_m
               (Fin d) (Fin f) (Fin v) (Fin m) (Fin d) (Fin u0) (Fin t0) in
  s_theta_E s = Fin 0
  /\ s_tE s = Fin 0
  /\ length (s_t s) = 2000%nat
  /\ length (fst (s_y s)) = 2000%nat
  /\ Forall (eq NaN) (fst (s_y s))
  /\ Forall (eq NaN) (s_magn s).
Proof.
  intros Hd Hv s. subst s. unfold run. cbv zeta.
  rewrite EinsteinRadius_equal_distances by exact Hd.
  assert (EtE : EinsteinCrossTime kpc_m (Fin 0) (Fin d) (Fin v) = Fin 0).
  { rewrite EinsteinCrossTime_Fin by exact Hv. f_equal. field. exact Hv. }
  rewrite EtE. cbn [s_theta_E s_tE s_t s_y s_magn].
  pose proof (linspace_length (-8) 8 2000) as Hlen.
  set (grid := linspace (-8) 8 2000) in *. clearbody grid.
  rewrite Y_zero_crossing_time. cbn [fst snd].
  rewrite Magnification_arr_NaN.
  rewrite !length_map.
  repeat split; try exact Hlen; apply Forall_map_const.
Qed.

(** C4 (amended). [EinsteinRadius] validates nothing and signals no
    error: on finite arguments it returns 0 when lensDistance =
    sourceDistance (not zero), NaN when 0 < sourceDistance < lensDistance
    with a positive mass, and plus infinity when lensDistance = 0 <
    sourceDistance with a positive mass.  The run with lensDistance =
    sourceDistance (and a velocity that is not zero) does not abort: the
    crossing time is 0, all 2000 times are sampled, and every sampled y1
    and every magnification is NaN. *)
Theorem C4_EinsteinRadius_unvalidated (m ds dl f v u0 t0 : R) :
  (dl = ds -> ds <> 0 ->
   EinsteinRadius G c M_sun kpc_m (Fin m) (Fin ds) (Fin dl) = Fin 0)
  /\ (0 < m -> 0 < ds -> ds < dl ->
      EinsteinRadius G c M_sun kpc_m (Fin m) (Fin ds) (Fin dl) = NaN)
  /\ (0 < m -> 0 < ds -> dl = 0 ->
      EinsteinRadius G c M_sun kpc_m (Fin m) (Fin ds) (Fin dl) = PInf)
  /\ (dl = ds -> ds <> 0 -> v <> 0 ->
      let s := run G c M_sun kpc_m (Fin ds) (Fin f) (Fin v) (Fin m)
                   (Fin dl) (Fin u0) (Fin t0) in
      s_tE s = Fin 0
      /\ length (fst (s_y s)) = 2000%nat
      /\ Forall (eq NaN) (fst (s_y s))
      /\ Forall (eq NaN) (s_magn s)).
Proof.
  split; [| split; [| split]].
  - intros -> Hds. apply EinsteinRadius_equal_distances. exact Hds.
  - intros Hm Hds Hlt.
    apply EinsteinRadius_negative_radicand; try lra.
    pose proof (grav_kpc_pos m Hm) as Hg.
    assert (Hneg : 0 < gkpc m * (dl - ds) / dl / ds).
    { repeat apply Rdiv_lt_0_compat; try lra.
      apply Rmult_lt_0_compat; lra. }
    replace (gkpc m * (ds - dl) / dl / ds)
      with (- (gkpc m * (dl - ds) / dl / ds)) by (field; split; lra).
    lra.
  - intros Hm Hds ->. apply EinsteinRadius_zero_lens_distance; assumption.
  - intros -> Hds Hv.
    destruct (run_equal_distances ds f v m u0 t0 Hds Hv)
      as (_ & HtE & _ & Hlen & Hy & Hmag).
    cbv zeta. repeat split; assumption.
Qed.

End LensProperties.

(** The shipped constants are positive. *)
Lemma Astropy_G_pos : 0 < Astropy.G.
Proof.
  unfold Astropy.G. apply Rdiv_lt_0_compat; [lra | apply pow_lt; lra].
Qed.

Lemma Astropy_c_pos : 0 < Astropy.c.
Proof. unfold Astropy.c. lra. Qed.

Lemma Astropy_M_sun_pos : 0 < Astropy.M_sun.
Proof.
  unfold Astropy.M_sun. apply Rmult_lt_0_compat; [lra | apply pow_lt; lra].
Qed.

Lemma Astropy_kpc_m_pos : 0 < Astropy.kpc_m.
Proof.
  unfold Astropy.kpc_m. apply Rmult_lt_0_compat; [lra | apply pow_lt; lra].
Qed.

(** The scenario of the specification: half a solar mass, source at 8 kpc,
    lens at 4 kpc, 200 km/s. *)
Lemma C7_lens_scale_positive_and_sqrt2_witness :
  exists theta tE : R,
    EinsteinRadius Astropy.G Astropy.c Astropy.M_sun Astropy.kpc_m
                   (Fin 0.5) (Fin 8) (Fin 4) = Fin theta
    /\ 0 < theta
    /\ EinsteinCrossTime Astropy.kpc_m (Fin theta) (Fin 4) (Fin 200)
       = Fin tE
    /\ 0 < tE
    /\ EinsteinRadius Astropy.G Astropy.c Astropy.M_sun Astropy.kpc_m
                      (Fin (2 * 0.5)) (Fin 8) (Fin 4)
       = Fin (sqrt 2 * theta).
Proof.
  apply (C7_lens_scale_positive_and_sqrt2
           Astropy.G Astropy.c Astropy.M_sun Astropy.kpc_m
           Astropy_G_pos Astropy_c_pos Astropy_M_sun_pos Astropy_kpc_m_pos
           0.5 8 4 200); lra.
Defined.

(** C4 (as stated, refuted). With lensDistance = sourceDistance = 8 kpc
    [EinsteinRadius] returns 0, and the run goes on to sample the 2000
    times: every magnification it computes is NaN. *)
Lemma C4_equal_distances_no_error :
  EinsteinRadius Astropy.G Astropy.c Astropy.M_sun Astropy.kpc_m
                 (Fin 0.5) (Fin 8) (Fin 8) = Fin 0
  /\ Forall (eq NaN)
       (s_magn (run Astropy.G Astropy.c Astropy.M_sun Astropy.kpc_m
                    (Fin 8) (Fin 1) (Fin 200) (Fin 0.5) (Fin 8)
                    (Fin 0.1) (Fin 0))).
Proof.
  split.
  - apply EinsteinRadius_equal_distances;
      auto using Astropy_c_pos; lra.
  - apply (run_equal_distances
             Astropy.G Astropy.c Astropy.M_sun Astropy.kpc_m
             Astropy_c_pos 8 1 200 0.5 0.1 0); lra.
Qed.

Lemma C4_EinsteinRadius_unvalidated_witness :
  EinsteinRadius Astropy.G Astropy.c Astropy.M_sun Astropy.kpc_m
                 (Fin 0.5) (Fin 8) (Fin 8) = Fin 0
  /\ EinsteinRadius Astropy.G Astropy.c Astropy.M_sun Astropy.kpc_m
                    (Fin 0.5) (Fin 4) (Fin 8) = NaN
  /\ EinsteinRadius Astropy.G Astropy.c Astropy.M_sun Astropy.kpc_m
                    (Fin 0.5) (Fin 8) (Fin 0) = PInf
  /\ Forall (eq NaN)
       (s_magn (run Astropy.G Astropy.c Astropy.M_sun Astropy.kpc_m
                    (Fin 8) (Fin 1) (Fin 200) (Fin 0.5) (Fin 8)
                    (Fin 0.1) (Fin 0))).
Proof.
  pose proof (C4_EinsteinRadius_unvalidated
                Astropy.G Astropy.c Astropy.M_sun Astropy.kpc_m
                Astropy_G_pos Astropy_c_pos Astropy_M_sun_pos
                Astropy_kpc_m_pos) as H.
  split; [| split; [| split]].
  - apply (proj1 (H 0.5 8 8 1 200 0.1 0)); lra.
  - apply (proj1 (proj2 (H 0.5 4 8 1 200 0.1 0))); lra.
  - apply (proj1 (proj2 (proj2 (H 0.5 8 0 1 200 0.1 0)))); lra.
  - apply (proj2 (proj2 (proj2 (H 0.5 8 8 1 200 0.1 0)))); lra.
Defined.

(** ** The boundary of a finite source *)

Lemma linspace_SS (a b : R) (m : nat) :
  linspace a b (S (S m))
  = map (fun i => INR i * ((b - a) / INR (S m)) + a) (seq 0 (S m)) ++ [b].
Proof. reflexivity. Qed.



Lemma phi_grid_length : length phi_grid = 360%nat.
Proof. unfold phi_grid. apply linspace_length. Qed.



(** [X_ext_source] is [X] at each offset position. *)
Lemma X_ext_source_pointwise (y1 y2 r : npfloat) (plus : bool) :
  X_ext_source y1 y2 r plus
  = (map (fun phi => fst (X (fst (boundary_point y1 y2 r phi))
                            (snd (boundary_point y1 y2 r phi)) plus))
         phi_grid,
     map (fun phi => snd (X (fst (boundary_point y1 y2 r phi))
                            (snd (boundary_point y1 y2 r phi)) plus))
         phi_grid).
Proof.
  unfold X_ext_source. cbv zeta.
  generalize phi_grid as phi. intros phi.
  destruct plus; f_equal;
    induction phi as [| p phi IH]; cbn [map zip_with];
    try reflexivity; rewrite IH; reflexivity.
Qed.

Lemma phi_grid_shape :
  exists mid : list R, phi_grid = 0 :: mid ++ [2 * PI].
Proof.
  unfold phi_grid. change 360%nat with (S (S 358)).
  rewrite linspace_SS.
  exists (map (fun i => INR i * ((2 * PI - 0) / INR 359) + 0) (seq 1 358)).
  cbn [seq map app]. f_equal. simpl INR. lra.
Qed.


Lemma hd_last_map_closed {B : Type} (g : R -> B) (d : B) (l mid : list R)
      (a b : R) :
  l = a :: mid ++ [b] ->
  hd d (map g l) = g a /\ last (map g l) d = g b.
Proof.
  intros ->. split; [reflexivity |].
  change (a :: mid ++ [b]) with ((a :: mid) ++ [b]).
  rewrite map_app. cbn [map]. apply last_last.
Qed.



(** *** The grid that ends at the float64 value of 2 pi *)

(** [np_pi] is the value of the float64 [np.pi]: mantissa
    7074237752028440, exponent -51; and twice that float is again a
    float, [2*np.pi], with the same mantissa. *)
Lemma np_pi_is_the_float64_pi :
  FloatOps.Prim2SF 0x1.921fb54442d18p+1
  = SpecFloat.S754_finite false 7074237752028440 (-51)
  /\ FloatOps.Prim2SF (PrimFloat.mul 2 0x1.921fb54442d18p+1)
     = SpecFloat.S754_finite false 7074237752028440 (-50)
  /\ 2 ^ 51 = 2251799813685248.
Proof. repeat split; try (vm_compute; reflexivity). lra. Qed.

(** [np.pi] lies below pi, by between 1.22e-16 and 1.27e-16. *)
Lemma np_pi_bounds :
  np_pi + 122 / 10 ^ 18 < PI /\ PI < np_pi + 127 / 10 ^ 18.
Proof.
  destruct (PI_2_3_7_ineq 8) as [Hlo Hhi].
  unfold np_pi.
  cbv [sum_f_R0 tg_alt PI_2_3_7_tg Ratan_seq Nat.mul Nat.add INR pow]
    in Hlo, Hhi.
  split; lra.
Qed.

(** The sine of the last angle is negative and tiny, not zero. *)
Lemma sin_two_np_pi : - (254 / 10 ^ 18) < sin (2 * np_pi) < 0.
Proof.
  destruct np_pi_bounds as [Hlo Hhi].
  set (d := 2 * PI - 2 * np_pi).
  assert (Hd : 244 / 10 ^ 18 < d < 254 / 10 ^ 18) by (subst d; lra).
  assert (Hd0 : 0 < d) by lra.
  assert (HdPI : d < PI) by (pose proof PI2_1; lra).
  assert (E : sin (2 * np_pi) = - sin d).
  { replace (2 * np_pi) with (2 * PI - d) by (subst d; ring).
    rewrite sin_minus, sin_2PI, cos_2PI. ring. }
  pose proof (sin_gt_0 d Hd0 HdPI) as Hs0.
  pose proof (sin_lt_x d Hd0) as Hsd.
  rewrite E. lra.
Qed.

Lemma linspace_360_shape (two_pi : R) :
  exists mid : list R, linspace 0 two_pi 360 = 0 :: mid ++ [two_pi].
Proof.
  change 360%nat with (S (S 358)). rewrite linspace_SS.
  exists (map (fun i => INR i * ((two_pi - 0) / INR 359) + 0) (seq 1 358)).
  cbn [seq map app]. f_equal. simpl INR. lra.
Qed.

(** [X_ext_source_at] is [X] at each offset position of its grid. *)
Lemma X_ext_source_at_pointwise (two_pi : R) (y1 y2 r : npfloat)
      (plus : bool) :
  X_ext_source_at two_pi y1 y2 r plus
  = (map (fun phi => fst (X (fst (boundary_point y1 y2 r phi))
                            (snd (boundary_point y1 y2 r phi)) plus))
         (linspace 0 two_pi 360),
     map (fun phi => snd (X (fst (boundary_point y1 y2 r phi))
                            (snd (boundary_point y1 y2 r phi)) plus))
         (linspace 0 two_pi 360)).
Proof.
  unfold X_ext_source_at. cbv zeta.
  generalize (linspace 0 two_pi 360) as phi. intros phi.
  destruct plus; f_equal;
    induction phi as [| p phi IH]; cbn [map zip_with];
    try reflexivity; rewrite IH; reflexivity.
Qed.

(** With the exact 2 pi as the last angle it is [X_ext_source]. *)
Lemma X_ext_source_at_exact (y1 y2 r : npfloat) (plus : bool) :
  X_ext_source_at (2 * PI) y1 y2 r plus = X_ext_source y1 y2 r plus.
Proof. reflexivity. Qed.

(** The first and the last element of each coordinate array. *)
Lemma X_ext_source_at_ends (two_pi : R) (y1 y2 r : npfloat) (plus : bool) :
  let x := X_ext_source_at two_pi y1 y2 r plus in
  let image := fun phi => X (fst (boundary_point y1 y2 r phi))
                            (snd (boundary_point y1 y2 r phi)) plus in
  (forall d, hd d (fst x) = fst (image 0))
  /\ (forall d, hd d (snd x) = snd (image 0))
  /\ (forall d, last (fst x) d = fst (image two_pi))
  /\ (forall d, last (snd x) d = snd (image two_pi)).
Proof.
  intros x image. subst x. rewrite X_ext_source_at_pointwise.
  cbn [fst snd].
  destruct (linspace_360_shape two_pi) as (mid & E).
  split; [| split; [| split]]; intros d.
  - apply (proj1 (hd_last_map_closed (fun phi => fst (image phi)) d
                                     _ mid 0 two_pi E)).
  - apply (proj1 (hd_last_map_closed (fun phi => snd (image phi)) d
                                     _ mid 0 two_pi E)).
  - apply (proj2 (hd_last_map_closed (fun phi => fst (image phi)) d
                                     _ mid 0 two_pi E)).
  - apply (proj2 (hd_last_map_closed (fun phi => snd (image phi)) d
                                     _ mid 0 two_pi E)).
Qed.

(** C10 (as stated, refuted). For the centre (-1, 0), radius 1 and the plus
    image the first element of the contour is NaN (the boundary point at
    angle 0 is the lens centre) and the last is a finite number (the
    boundary point at angle 2*np.pi is not the lens centre, because
    sin(2*np.pi) is not 0): the first element does not equal the last. *)
Lemma C10_first_NaN_last_finite :
  let x := X_ext_source_at (2 * np_pi) (Fin (-1)) (Fin 0) (Fin 1) true in
  hd (Fin 0) (fst x) = NaN
  /\ (exists v : R, last (fst x) NaN = Fin v)
  /\ hd NaN (fst x) <> last (fst x) NaN.
Proof.
  intros x.
  destruct (X_ext_source_at_ends (2 * np_pi) (Fin (-1)) (Fin 0) (Fin 1) true)
    as (Hh & _ & Hl & _).
  cbv zeta in Hh, Hl. fold x in Hh, Hl.
  assert (E0 : forall d, hd d (fst x) = NaN).
  { intros d. rewrite Hh. unfold boundary_point, fcos, fsin.
    cbn [fst snd]. rewrite cos_0, sin_0, !fmul_Fin, !fadd_Fin.
    replace (-1 + 1 * 1) with 0 by lra.
    replace (0 + 1 * 0) with 0 by lra.
    rewrite X_origin. reflexivity. }
  assert (E1 : forall d, exists v : R, last (fst x) d = Fin v).
  { intros d. rewrite Hl. unfold boundary_point, fcos, fsin.
    cbn [fst snd]. rewrite !fmul_Fin, !fadd_Fin.
    assert (Hpos : 0 < sqrt ((-1 + 1 * cos (2 * np_pi))
                             * (-1 + 1 * cos (2 * np_pi))
                             + (0 + 1 * sin (2 * np_pi))
                               * (0 + 1 * sin (2 * np_pi)))).
    { apply sqrt_lt_R0. destruct sin_two_np_pi as [_ Hs].
      set (a := -1 + 1 * cos (2 * np_pi)).
      set (b := sin (2 * np_pi)) in *.
      assert (Ha : 0 <= a * a) by nra.
      assert (Hb : 0 < b * b) by nra.
      lra. }
    rewrite (X_Fin _ _ true Hpos). cbn [fst]. eexists. reflexivity. }
  split; [apply E0 |]. split; [apply E1 |].
  destruct (E1 NaN) as (v & Ev). rewrite E0, Ev. discriminate.
Qed.

(** C10 (amended). For every centre (y1, y2), every radius and either
    image, each coordinate array returned by the finite-source function
    has exactly 360 elements; its first element is the point image of the
    boundary point at angle 0, whose offset is (r * 1, r * 0), and its
    last element is the point image of the boundary point at the angle
    2*np.pi.  As np.pi is the float64 below pi, sin(2*np.pi) is not 0 but
    a negative number of magnitude below 2.54e-16: the last boundary
    offset differs from the first, the contour is closed only
    approximately, and its first and last element are not equal in
    general. *)
Theorem C10_X_ext_source_contour_ends (y1 y2 r : npfloat) (plus : bool) :
  let x := X_ext_source_at (2 * np_pi) y1 y2 r plus in
  let image := fun phi => X (fst (boundary_point y1 y2 r phi))
                            (snd (boundary_point y1 y2 r phi)) plus in
  length (fst x) = 360%nat
  /\ length (snd x) = 360%nat
  /\ hd NaN (fst x) = fst (image 0)
  /\ hd NaN (snd x) = snd (image 0)
  /\ last (fst x) NaN = fst (image (2 * np_pi))
  /\ last (snd x) NaN = snd (image (2 * np_pi))
  /\ boundary_point y1 y2 r 0 = ((y1 + r * Fin 1)%np, (y2 + r * Fin 0)%np)
  /\ exists s : R,
      fsin (Fin (2 * np_pi)) = Fin s /\ - (254 / 10 ^ 18) < s < 0.
Proof.
  intros x image.
  destruct (X_ext_source_at_ends (2 * np_pi) y1 y2 r plus)
    as (Hh1 & Hh2 & Hl1 & Hl2).
  cbv zeta in Hh1, Hh2, Hl1, Hl2. fold x in Hh1, Hh2, Hl1, Hl2.
  assert (Hlen : length (fst x) = 360%nat /\ length (snd x) = 360%nat).
  { subst x. rewrite X_ext_source_at_pointwise. cbn [fst snd].
    rewrite !length_map, linspace_length. split; reflexivity. }
  destruct Hlen as [Hlen1 Hlen2].
  split; [exact Hlen1 |]. split; [exact Hlen2 |].
  split; [apply Hh1 |]. split; [apply Hh2 |].
  split; [apply Hl1 |]. split; [apply Hl2 |].
  split.
  - unfold boundary_point, fcos, fsin. rewrite cos_0, sin_0. reflexivity.
  - exists (sin (2 * np_pi)). split; [reflexivity | apply sin_two_np_pi].
Qed.

(** * Further properties of the model functions *)

(** ** The images solve the lens equation *)

Lemma image_factor_quadratic (r : R) (plus : bool) :
  0 < r ->
  let k := image_factor r plus in
  k * k * (r * r) = k * (r * r) + 1.
Proof.
  intros Hr k.
  destruct (sqrt_plus4_bounds r Hr) as (Hss & _ & _ & _).
  cbv zeta in Hss.
  assert (E : k * r = (r + (if plus then 1 else -1) * sqrt (r * r + 4)) / 2).
  { subst k. destruct plus.
    - rewrite image_factor_plus by exact Hr. lra.
    - rewrite image_factor_minus by exact Hr. lra. }
  replace (k * k * (r * r)) with (k * r * (k * r)) by ring.
  replace (k * (r * r)) with (k * r * r) by ring.
  rewrite E. destruct plus; nra.
Qed.

(** Both values [X] returns for a source off the lens centre are solutions
    x of the point-lens equation y = x - x / |x|^2, and the two images add
    up to the source position. *)
Theorem X_solves_lens_equation (y1 y2 : R) (plus : bool) :
  0 < norm y1 y2 ->
  exists x1 x2 : R,
    X (Fin y1) (Fin y2) plus = (Fin x1, Fin x2)
    /\ 0 < x1 * x1 + x2 * x2
    /\ y1 = x1 - x1 / (x1 * x1 + x2 * x2)
    /\ y2 = x2 - x2 / (x1 * x1 + x2 * x2).
Proof.
  intros Hr.
  pose proof (image_factor_quadratic (norm y1 y2) plus Hr) as Hq.
  cbv zeta in Hq.
  set (k := image_factor (norm y1 y2) plus) in *.
  assert (Hrr : norm y1 y2 * norm y1 y2 = y1 * y1 + y2 * y2).
  { unfold norm. apply sqrt_sqrt. apply sum_sq_nonneg. }
  rewrite Hrr in Hq.
  assert (Hpos : 0 < y1 * y1 + y2 * y2) by (rewrite <- Hrr; nra).
  exists (k * y1), (k * y2).
  assert (Hn : k * y1 * (k * y1) + k * y2 * (k * y2)
               = k * k * (y1 * y1 + y2 * y2)) by ring.
  assert (Hk : k <> 0) by (intros E; rewrite E in Hq; lra).
  assert (Hkk : 0 < k * k) by nra.
  assert (Hd : 0 < k * k * (y1 * y1 + y2 * y2))
    by (apply Rmult_lt_0_compat; assumption).
  split; [exact (X_Fin y1 y2 plus Hr) |].
  rewrite Hn. split; [exact Hd |].
  split.
  - apply (Rmult_eq_reg_r (k * k * (y1 * y1 + y2 * y2))); [| lra].
    replace ((k * y1 - k * y1 / (k * k * (y1 * y1 + y2 * y2)))
             * (k * k * (y1 * y1 + y2 * y2)))
      with (y1 * k * (k * k * (y1 * y1 + y2 * y2) - 1)) by (field; lra).
    replace (k * k * (y1 * y1 + y2 * y2) - 1)
      with (k * (y1 * y1 + y2 * y2)) by lra.
    ring.
  - apply (Rmult_eq_reg_r (k * k * (y1 * y1 + y2 * y2))); [| lra].
    replace ((k * y2 - k * y2 / (k * k * (y1 * y1 + y2 * y2)))
             * (k * k * (y1 * y1 + y2 * y2)))
      with (y2 * k * (k * k * (y1 * y1 + y2 * y2) - 1)) by (field; lra).
    replace (k * k * (y1 * y1 + y2 * y2) - 1)
      with (k * (y1 * y1 + y2 * y2)) by lra.
    ring.
Qed.

Lemma X_solves_lens_equation_witness :
  exists x1 x2 : R,
    X (Fin 3) (Fin 4) false = (Fin x1, Fin x2)
    /\ 0 < x1 * x1 + x2 * x2
    /\ 3 = x1 - x1 / (x1 * x1 + x2 * x2)
    /\ 4 = x2 - x2 / (x1 * x1 + x2 * x2).
Proof.
  apply (X_solves_lens_equation 3 4 false).
  unfold norm. apply sqrt_lt_R0. lra.
Defined.

(** The plus and the minus image of a source off the lens centre add up to
    the source position. *)
Theorem X_images_sum_to_source (y1 y2 : R) :
  0 < norm y1 y2 ->
  exists p1 p2 m1 m2 : R,
    X (Fin y1) (Fin y2) true = (Fin p1, Fin p2)
    /\ X (Fin y1) (Fin y2) false = (Fin m1, Fin m2)
    /\ p1 + m1 = y1 /\ p2 + m2 = y2.
Proof.
  intros Hr.
  exists (image_factor (norm y1 y2) true * y1),
         (image_factor (norm y1 y2) true * y2),
         (image_factor (norm y1 y2) false * y1),
         (image_factor (norm y1 y2) false * y2).
  split; [exact (X_Fin y1 y2 true Hr) |].
  split; [exact (X_Fin y1 y2 false Hr) |].
  assert (E : image_factor (norm y1 y2) true
              + image_factor (norm y1 y2) false = 1).
  { unfold image_factor. rewrite half_eq. field. lra. }
  split; nra.
Qed.

Lemma X_images_sum_to_source_witness :
  exists p1 p2 m1 m2 : R,
    X (Fin 3) (Fin 4) true = (Fin p1, Fin p2)
    /\ X (Fin 3) (Fin 4) false = (Fin m1, Fin m2)
    /\ p1 + m1 = 3 /\ p2 + m2 = 4.
Proof.
  apply (X_images_sum_to_source 3 4).
  unfold norm. apply sqrt_lt_R0. lra.
Defined.

(** ** The source on the lens centre: the images *)

(** [X] has no guard either: for a source exactly on the lens centre both
    coordinates of both images are NaN (Q is +inf, and inf * 0 is NaN). *)
Theorem X_origin_is_NaN :
  X (Fin 0) (Fin 0) true = (NaN, NaN)
  /\ X (Fin 0) (Fin 0) false = (NaN, NaN).
Proof. split; apply X_origin. Qed.

(** ** The trajectory with a crossing time of zero *)

(** [Y] does not check the crossing time.  With [tE = 0] the first
    coordinate is +inf at a time after the peak, -inf at a time before it
    and NaN at the peak itself; the second coordinate is still [u0]. *)
Theorem Y_zero_crossing_time_values (t t0 u0 : R) :
  (t0 < t ->
   Y [Fin t] (Fin t0) (Fin 0) (Fin u0) = ([PInf], [Fin u0]))
  /\ (t < t0 ->
      Y [Fin t] (Fin t0) (Fin 0) (Fin u0) = ([NInf], [Fin u0]))
  /\ (t = t0 ->
      Y [Fin t] (Fin t0) (Fin 0) (Fin u0) = ([NaN], [Fin u0])).
Proof.
  assert (E : Y [Fin t] (Fin t0) (Fin 0) (Fin u0)
              = ([inf_of (Rsign (t - t0))], [Fin u0])).
  { unfold Y, ones. cbn [map length repeat].
    rewrite fsub_Fin, fdiv_zero, fmul_Fin. do 3 f_equal. lra. }
  rewrite E. split; [| split]; intros H.
  - rewrite Rsign_pos by lra. reflexivity.
  - rewrite Rsign_neg by lra. reflexivity.
  - rewrite Rsign_of_zero by lra. reflexivity.
Qed.

Lemma Y_zero_crossing_time_values_witness :
  Y [Fin 1] (Fin 0) (Fin 0) (Fin 0.1) = ([PInf], [Fin 0.1])
  /\ Y [Fin (-1)] (Fin 0) (Fin 0) (Fin 0.1) = ([NInf], [Fin 0.1])
  /\ Y [Fin 0] (Fin 0) (Fin 0) (Fin 0.1) = ([NaN], [Fin 0.1]).
Proof.
  split; [| split].
  - apply (proj1 (Y_zero_crossing_time_values 1 0 0.1)). lra.
  - apply (proj1 (proj2 (Y_zero_crossing_time_values (-1) 0 0.1))). lra.
  - apply (proj2 (proj2 (Y_zero_crossing_time_values 0 0 0.1))).
    reflexivity.
Defined.

(** ** Scaling of the crossing time *)

Section ValidParameters.

Variables G c M_sun kpc_m : R.
Hypothesis G_pos : 0 < G.
Hypothesis c_pos : 0 < c.
Hypothesis M_sun_pos : 0 < M_sun.
Hypothesis kpc_m_pos : 0 < kpc_m.

Local Abbreviation radicand m ds dl :=
  (grav_kpc G c M_sun kpc_m m * (ds - dl) / dl / ds).

Lemma radicand_pos (m ds dl : R) :
  0 < m -> 0 < dl -> dl < ds -> 0 < radicand m ds dl.
Proof.
  intros Hm Hdl Hlt.
  pose proof (grav_kpc_pos G c M_sun kpc_m G_pos c_pos M_sun_pos
                           kpc_m_pos m Hm) as Hg.
  repeat apply Rdiv_lt_0_compat; try lra.
  apply Rmult_lt_0_compat; lra.
Qed.

Lemma aconv_round_trip : aconv * (PI / (180 * 3600)) = 1.
Proof.
  unfold aconv, rad2deg. pose proof PI_RGT_0. field. lra.
Qed.

(** The crossing time of the radius that [EinsteinRadius] returns. *)
Lemma crossing_time_of_radius (m ds dl v : R) :
  0 < m -> 0 < dl -> dl < ds -> v <> 0 ->
  EinsteinCrossTime kpc_m
    (EinsteinRadius G c M_sun kpc_m (Fin m) (Fin ds) (Fin dl))
    (Fin dl) (Fin v)
  = Fin (sqrt (radicand m ds dl) * dl * (kpc_m / 1000) / v / 86400).
Proof.
  intros Hm Hdl Hlt Hv.
  pose proof (radicand_pos m ds dl Hm Hdl Hlt) as Hrad.
  rewrite (EinsteinRadius_Fin G c M_sun kpc_m c_pos) by lra.
  rewrite EinsteinCrossTime_Fin by exact Hv.
  f_equal.
  replace (sqrt (radicand m ds dl) * aconv * (PI / (180 * 3600)))
    with (sqrt (radicand m ds dl) * (aconv * (PI / (180 * 3600))))
    by ring.
  rewrite aconv_round_trip. field. exact Hv.
Qed.

(** With valid parameters the crossing time that [run] computes is a
    positive finite number of days. *)
Lemma crossing_time_valid (m ds dl v : R) :
  0 < m -> 0 < dl -> dl < ds -> 0 < v ->
  exists tE : R,
    0 < tE
    /\ EinsteinCrossTime kpc_m
         (EinsteinRadius G c M_sun kpc_m (Fin m) (Fin ds) (Fin dl))
         (Fin dl) (Fin v)
       = Fin tE.
Proof.
  intros Hm Hdl Hlt Hv.
  pose proof (radicand_pos m ds dl Hm Hdl Hlt) as Hrad.
  assert (Hs : 0 < sqrt (radicand m ds dl)) by (apply sqrt_lt_R0; lra).
  exists (sqrt (radicand m ds dl) * dl * (kpc_m / 1000) / v / 86400).
  split; [| apply crossing_time_of_radius; lra].
  assert (H2 : 0 < kpc_m / 1000) by (apply Rdiv_lt_0_compat; lra).
  apply Rdiv_lt_0_compat; [| lra].
  apply Rdiv_lt_0_compat; [| exact Hv].
  apply Rmult_lt_0_compat; [| exact H2].
  apply Rmult_lt_0_compat; assumption.
Qed.

(** The conversion of the radius to arc seconds in [EinsteinRadius] and
    back to radians in [EinsteinCrossTime] cancel: for valid parameters
    the crossing time in days is
    sqrt(4 G M / c^2 * (ds - dl) / (dl ds)) * dl * (km per kpc) / v / 86400,
    with the gravitational length in kpc. *)
Theorem EinsteinCrossTime_of_EinsteinRadius (m ds dl v : R) :
  0 < m -> 0 < dl -> dl < ds -> 0 < v ->
  EinsteinCrossTime kpc_m
    (EinsteinRadius G c M_sun kpc_m (Fin m) (Fin ds) (Fin dl))
    (Fin dl) (Fin v)
  = Fin (sqrt (4 * (G * (m * M_sun) / c / c * / kpc_m)
               * (ds - dl) / dl / ds)
         * dl * (kpc_m / 1000) / v / 86400).
Proof.
  intros Hm Hdl Hlt Hv.
  apply crossing_time_of_radius; lra.
Qed.

(** For valid parameters, four times the lens mass doubles the crossing
    time and twice the velocity halves it. *)
Theorem EinsteinCrossTime_scaling (m ds dl v : R) :
  0 < m -> 0 < dl -> dl < ds -> 0 < v ->
  exists tE : R,
    0 < tE
    /\ EinsteinCrossTime kpc_m
         (EinsteinRadius G c M_sun kpc_m (Fin m) (Fin ds) (Fin dl))
         (Fin dl) (Fin v) = Fin tE
    /\ EinsteinCrossTime kpc_m
         (EinsteinRadius G c M_sun kpc_m (Fin (4 * m)) (Fin ds) (Fin dl))
         (Fin dl) (Fin v) = Fin (2 * tE)
    /\ EinsteinCrossTime kpc_m
         (EinsteinRadius G c M_sun kpc_m (Fin m) (Fin ds) (Fin dl))
         (Fin dl) (Fin (2 * v)) = Fin (tE / 2).
Proof.
  intros Hm Hdl Hlt Hv.
  destruct (crossing_time_valid m ds dl v Hm Hdl Hlt Hv) as (tE & HtE & E).
  exists tE. split; [exact HtE |]. split; [exact E |].
  rewrite crossing_time_of_radius in E by lra.
  injection E as E.
  pose proof (radicand_pos m ds dl Hm Hdl Hlt) as Hrad.
  split.
  - rewrite crossing_time_of_radius by lra. f_equal.
    assert (E4 : radicand (4 * m) ds dl = 2 * 2 * radicand m ds dl).
    { unfold grav_kpc. field. repeat split; lra. }
    rewrite E4. rewrite sqrt_mult by lra.
    rewrite sqrt_square by lra. rewrite <- E. field. lra.
  - rewrite crossing_time_of_radius by lra. f_equal.
    rewrite <- E. field. lra.
Qed.

(** [EinsteinCrossTime] does not check the velocity: with a velocity of
    zero (and otherwise valid parameters) it returns plus infinity. *)
Theorem EinsteinCrossTime_zero_velocity (m ds dl : R) :
  0 < m -> 0 < dl -> dl < ds ->
  EinsteinCrossTime kpc_m
    (EinsteinRadius G c M_sun kpc_m (Fin m) (Fin ds) (Fin dl))
    (Fin dl) (Fin 0)
  = PInf.
Proof.
  intros Hm Hdl Hlt.
  pose proof (radicand_pos m ds dl Hm Hdl Hlt) as Hrad.
  assert (Hs : 0 < sqrt (radicand m ds dl)) by (apply sqrt_lt_R0; lra).
  pose proof aconv_pos as Ha. pose proof PI_RGT_0 as Hpi.
  rewrite (EinsteinRadius_Fin G c M_sun kpc_m c_pos) by lra.
  unfold EinsteinCrossTime, s_to_day, kpc_to_km, arcsec_to_radian.
  rewrite !fmul_Fin, fdiv_zero.
  assert (H1 : 0 < PI / (180 * 3600)) by (apply Rdiv_lt_0_compat; lra).
  assert (H2 : 0 < kpc_m / 1000) by (apply Rdiv_lt_0_compat; lra).
  rewrite Rsign_pos.
  - cbn [inf_of fmul fsign]. rewrite Rsign_pos by lra. reflexivity.
  - apply Rmult_lt_0_compat; [| exact H2].
    apply Rmult_lt_0_compat; [| exact Hdl].
    apply Rmult_lt_0_compat; [| exact H1].
    apply Rmult_lt_0_compat; assumption.
Qed.

(** [EinsteinRadius] does not check the mass: a lens of mass zero has
    radius 0, and a negative mass (with valid distances) gives NaN. *)
Theorem EinsteinRadius_nonpositive_mass (m ds dl : R) :
  0 < dl -> dl < ds ->
  (m = 0 ->
   EinsteinRadius G c M_sun kpc_m (Fin m) (Fin ds) (Fin dl) = Fin 0)
  /\ (m < 0 ->
      EinsteinRadius G c M_sun kpc_m (Fin m) (Fin ds) (Fin dl) = NaN).
Proof.
  intros Hdl Hlt. split; intros Hm.
  - subst m.
    assert (E0 : radicand 0 ds dl = 0).
    { unfold grav_kpc. field. repeat split; lra. }
    rewrite (EinsteinRadius_Fin G c M_sun kpc_m c_pos) by lra.
    rewrite E0, sqrt_0. f_equal. ring.
  - apply (EinsteinRadius_negative_radicand G c M_sun kpc_m c_pos);
      try lra.
    assert (Hpos : 0 < radicand (- m) ds dl)
      by (apply radicand_pos; lra).
    replace (radicand m ds dl) with (- radicand (- m) ds dl).
    + lra.
    + unfold grav_kpc. field. repeat split; lra.
Qed.

End ValidParameters.

(** The properties above at the parameters of the specification's
    scenario: half a solar mass, source at 8 kpc, lens at 4 kpc, 200 km/s,
    impact parameter 0.1, baseline flux 1, peak time 0. *)

Lemma EinsteinCrossTime_of_EinsteinRadius_witness :
  EinsteinCrossTime Astropy.kpc_m
    (EinsteinRadius Astropy.G Astropy.c Astropy.M_sun Astropy.kpc_m
                    (Fin 0.5) (Fin 8) (Fin 4))
    (Fin 4) (Fin 200)
  = Fin (sqrt (4 * (Astropy.G * (0.5 * Astropy.M_sun) / Astropy.c
                    / Astropy.c * / Astropy.kpc_m)
               * (8 - 4) / 4 / 8)
         * 4 * (Astropy.kpc_m / 1000) / 200 / 86400).
Proof.
  apply (EinsteinCrossTime_of_EinsteinRadius
           Astropy.G Astropy.c Astropy.M_sun Astropy.kpc_m
           Astropy_G_pos Astropy_c_pos Astropy_M_sun_pos Astropy_kpc_m_pos
           0.5 8 4 200); lra.
Defined.

Lemma EinsteinCrossTime_scaling_witness :
  exists tE : R,
    0 < tE
    /\ EinsteinCrossTime Astropy.kpc_m
         (EinsteinRadius Astropy.G Astropy.c Astropy.M_sun Astropy.kpc_m
                         (Fin 0.5) (Fin 8) (Fin 4))
         (Fin 4) (Fin 200) = Fin tE
    /\ EinsteinCrossTime Astropy.kpc_m
         (EinsteinRadius Astropy.G Astropy.c Astropy.M_sun Astropy.kpc_m
                         (Fin (4 * 0.5)) (Fin 8) (Fin 4))
         (Fin 4) (Fin 200) = Fin (2 * tE)
    /\ EinsteinCrossTime Astropy.kpc_m
         (EinsteinRadius Astropy.G Astropy.c Astropy.M_sun Astropy.kpc_m
                         (Fin 0.5) (Fin 8) (Fin 4))
         (Fin 4) (Fin (2 * 200)) = Fin (tE / 2).
Proof.
  apply (EinsteinCrossTime_scaling
           Astropy.G Astropy.c Astropy.M_sun Astropy.kpc_m
           Astropy_G_pos Astropy_c_pos Astropy_M_sun_pos Astropy_kpc_m_pos
           0.5 8 4 200); lra.
Defined.

Lemma EinsteinCrossTime_zero_velocity_witness :
  EinsteinCrossTime Astropy.kpc_m
    (EinsteinRadius Astropy.G Astropy.c Astropy.M_sun Astropy.kpc_m
                    (Fin 0.5) (Fin 8) (Fin 4))
    (Fin 4) (Fin 0)
  = PInf.
Proof.
  apply (EinsteinCrossTime_zero_velocity
           Astropy.G Astropy.c Astropy.M_sun Astropy.kpc_m
           Astropy_G_pos Astropy_c_pos Astropy_M_sun_pos Astropy_kpc_m_pos
           0.5 8 4); lra.
Defined.

Lemma EinsteinRadius_nonpositive_mass_witness :
  EinsteinRadius Astropy.G Astropy.c Astropy.M_sun Astropy.kpc_m
                 (Fin 0) (Fin 8) (Fin 4) = Fin 0
  /\ EinsteinRadius Astropy.G Astropy.c Astropy.M_sun Astropy.kpc_m
                    (Fin (-1)) (Fin 8) (Fin 4) = NaN.
Proof.
  split.
  - apply (proj1 (EinsteinRadius_nonpositive_mass
                    Astropy.G Astropy.c Astropy.M_sun Astropy.kpc_m
                    Astropy_G_pos Astropy_c_pos Astropy_M_sun_pos
                    Astropy_kpc_m_pos 0 8 4 ltac:(lra) ltac:(lra))).
    reflexivity.
  - apply (proj2 (EinsteinRadius_nonpositive_mass
                    Astropy.G Astropy.c Astropy.M_sun Astropy.kpc_m
                    Astropy_G_pos Astropy_c_pos Astropy_M_sun_pos
                    Astropy_kpc_m_pos (-1) 8 4 ltac:(lra) ltac:(lra))).
    lra.
Defined.

(** ** Frame numbers and file names *)

Lemma frame_loop_numbers (t0 tE y0 s_flux : npfloat) (n : nat)
      (t_sparse : ndarray) :
  map f_n (frame_loop t0 tE y0 s_flux n t_sparse)
  = seq (S n) (length t_sparse)
  /\ map f_tt (frame_loop t0 tE y0 s_flux n t_sparse) = t_sparse
  /\ map f_png (frame_loop t0 tE y0 s_flux n t_sparse)
     = map frame_png (seq (S n) (length t_sparse)).
Proof.
  revert n. induction t_sparse as [| t rest IH]; intros n.
  - repeat split; reflexivity.
  - destruct (IH (S n)) as (IHn & IHt & IHp).
    cbn [frame_loop map length seq f_n f_tt f_png].
    rewrite IHn, IHt, IHp. repeat split; reflexivity.
Qed.

Lemma format_03d_three_digits (n : nat) :
  (n < 1000)%nat -> format_03d n = three_digits n.
Proof.
  intros Hn.
  assert (Hall : forallb (fun k => String.eqb (format_03d k)
                                              (three_digits k))
                         (seq 0 1000) = true) by (vm_compute; reflexivity).
  rewrite forallb_forall in Hall.
  apply String.eqb_eq. apply Hall. apply in_seq. lia.
Qed.

Lemma digit_compare (a b : nat) :
  (a < 10)%nat -> (b < 10)%nat ->
  Ascii.compare (digit a) (digit b) = Nat.compare a b.
Proof.
  intros Ha Hb.
  assert (Hall : forallb (fun x =>
                   forallb (fun y =>
                     same_comparison (Ascii.compare (digit x) (digit y))
                                     (Nat.compare x y))
                           (seq 0 10))
                         (seq 0 10) = true) by (vm_compute; reflexivity).
  rewrite forallb_forall in Hall.
  assert (Hx : In a (seq 0 10)) by (apply in_seq; lia).
  specialize (Hall a Hx). rewrite forallb_forall in Hall.
  assert (Hy : In b (seq 0 10)) by (apply in_seq; lia).
  specialize (Hall b Hy).
  destruct (Ascii.compare (digit a) (digit b)), (Nat.compare a b);
    try reflexivity; discriminate.
Qed.

Lemma ascii_compare_refl (a : Ascii.ascii) : Ascii.compare a a = Eq.
Proof. unfold Ascii.compare. apply BinNat.N.compare_refl. Qed.

Lemma string_compare_prefix (p s t : String.string) :
  String.compare (String.append p s) (String.append p t)
  = String.compare s t.
Proof.
  induction p as [| a p IH]; [reflexivity |].
  cbn [String.append String.compare].
  rewrite ascii_compare_refl. exact IH.
Qed.

Lemma three_digits_decompose (n : nat) :
  (n < 1000)%nat ->
  (n / 100 < 10 /\ n / 10 mod 10 < 10 /\ n mod 10 < 10
   /\ n = 100 * (n / 100) + 10 * (n / 10 mod 10) + n mod 10)%nat.
Proof.
  intros Hn.
  assert (Hall : forallb (fun k =>
                   ((k / 100 <? 10) && (k / 10 mod 10 <? 10)
                    && (k mod 10 <? 10)
                    && (k =? 100 * (k / 100) + 10 * (k / 10 mod 10)
                             + k mod 10))%nat%bool)
                         (seq 0 1000) = true) by (vm_compute; reflexivity).
  rewrite forallb_forall in Hall.
  assert (Hin : In n (seq 0 1000)) by (apply in_seq; lia).
  specialize (Hall n Hin).
  rewrite !Bool.andb_true_iff in Hall.
  destruct Hall as (((H1 & H2) & H3) & H4).
  apply Nat.ltb_lt in H1, H2, H3. apply Nat.eqb_eq in H4.
  repeat split; assumption.
Qed.

(** In the byte order of their names (the order in which the pattern
    ['images/*.png'] of [Animation] lists them) the frame files are in the
    order of their numbers, for every pair of numbers below 1000; beyond
    three digits the padding no longer helps: the file of frame 1000 sorts
    before the file of frame 999. *)
Theorem frame_png_order (n m : nat) :
  (n < m)%nat -> (m < 1000)%nat ->
  String.compare (frame_png n) (frame_png m) = Lt
  /\ String.compare (frame_png 1000) (frame_png 999) = Lt.
Proof.
  intros Hnm Hm. split; [| vm_compute; reflexivity].
  unfold frame_png. rewrite string_compare_prefix.
  rewrite !format_03d_three_digits by lia.
  unfold three_digits.
  cbn [String.append String.compare].
  destruct (three_digits_decompose n) as (Hn1 & Hn2 & Hn3 & En); [lia |].
  destruct (three_digits_decompose m) as (Hm1 & Hm2 & Hm3 & Em); [lia |].
  rewrite (digit_compare (n / 100) (m / 100)),
    (digit_compare (n / 10 mod 10) (m / 10 mod 10)),
    (digit_compare (n mod 10) (m mod 10)) by assumption.
  destruct (Nat.compare_spec (n / 100) (m / 100)) as [E1 | L1 | G1];
    [| reflexivity | exfalso; lia].
  destruct (Nat.compare_spec (n / 10 mod 10) (m / 10 mod 10))
    as [E2 | L2 | G2]; [| reflexivity | exfalso; lia].
  destruct (Nat.compare_spec (n mod 10) (m mod 10)) as [E3 | L3 | G3];
    [exfalso; lia | reflexivity | exfalso; lia].
Qed.

Lemma frame_png_order_witness :
  String.compare (frame_png 9) (frame_png 10) = Lt
  /\ String.compare (frame_png 1000) (frame_png 999) = Lt.
Proof.
  apply (frame_png_order 9 10); lia.
Defined.

(** ** The boundary contour: special positions *)

Lemma map_const_repeat {A B : Type} (b : B) (l : list A) :
  map (fun _ => b) l = repeat b (length l).
Proof. induction l as [| a l IH]; simpl; [reflexivity | now rewrite IH]. Qed.

Lemma boundary_point_Fin (y1 y2 r phi : R) :
  boundary_point (Fin y1) (Fin y2) (Fin r) phi
  = (Fin (y1 + r * cos phi), Fin (y2 + r * sin phi)).
Proof. reflexivity. Qed.

(** With a radius of zero the contour degenerates: each of its 360 points
    is the image of the centre that [X] returns. *)
Theorem X_ext_source_zero_radius (y1 y2 : R) (plus : bool) :
  X_ext_source (Fin y1) (Fin y2) (Fin 0) plus
  = (repeat (fst (X (Fin y1) (Fin y2) plus)) 360,
     repeat (snd (X (Fin y1) (Fin y2) plus)) 360).
Proof.
  rewrite X_ext_source_pointwise.
  rewrite <- phi_grid_length, <- !map_const_repeat.
  f_equal; apply map_ext; intros phi;
    rewrite boundary_point_Fin; cbn [fst snd];
    replace (y1 + 0 * cos phi) with y1 by ring;
    replace (y2 + 0 * sin phi) with y2 by ring; reflexivity.
Qed.

(** When the boundary of the source passes through the lens centre the
    contour contains NaN: for the centre (-r, 0) and radius r the first
    point of each contour, at angle 0, has both coordinates NaN. *)
Theorem X_ext_source_boundary_through_origin (r : R) (plus : bool) :
  hd (Fin 0) (fst (X_ext_source (Fin (- r)) (Fin 0) (Fin r) plus)) = NaN
  /\ hd (Fin 0) (snd (X_ext_source (Fin (- r)) (Fin 0) (Fin r) plus)) = NaN.
Proof.
  rewrite X_ext_source_pointwise. cbn [fst snd].
  destruct phi_grid_shape as (mid & E). rewrite E. cbn [map hd].
  rewrite boundary_point_Fin. cbn [fst snd].
  rewrite cos_0, sin_0.
  replace (- r + r * 1) with 0 by ring.
  replace (0 + r * 0) with 0 by ring.
  rewrite X_origin. split; reflexivity.
Qed.

Lemma boundary_point_off_origin (y1 y2 r phi : R) :
  Rabs r < norm y1 y2 ->
  0 < norm (y1 + r * cos phi) (y2 + r * sin phi).
Proof.
  intros Hr.
  assert (Hnn : 0 <= norm (y1 + r * cos phi) (y2 + r * sin phi))
    by apply sqrt_pos.
  destruct Hnn as [Hpos | Hzero]; [exact Hpos | exfalso].
  symmetry in Hzero. unfold norm in Hzero.
  apply sqrt_eq_0 in Hzero; [| apply sum_sq_nonneg].
  destruct (Rplus_sqr_eq_0 _ _ Hzero) as [Z1 Z2].
  assert (E1 : y1 = - (r * cos phi)) by lra.
  assert (E2 : y2 = - (r * sin phi)) by lra.
  pose proof (sin2_cos2 phi) as Hsc. unfold Rsqr in Hsc.
  assert (En : norm y1 y2 = Rabs r).
  { unfold norm. rewrite <- sqrt_Rsqr_abs. f_equal.
    rewrite E1, E2. unfold Rsqr. nra. }
  lra.
Qed.

Lemma Forall2_map_same {A : Type} (P : npfloat -> npfloat -> Prop)
      (f g : A -> npfloat) (l : list A) :
  (forall a, P (f a) (g a)) -> Forall2 P (map f l) (map g l).
Proof.
  intros H. induction l as [| a l IH]; simpl; constructor; auto.
Qed.

(** When the lens centre lies outside the source disk (|r| < |y|), every
    point of the plus contour is finite and lies outside the unit
    (Einstein) circle and every point of the minus contour is finite and
    lies inside it: the two contours never cross the ring. *)
Theorem X_ext_source_separated_by_unit_circle (y1 y2 r : R) :
  Rabs r < norm y1 y2 ->
  Forall2 (fun a b => exists p1 p2 : R,
               a = Fin p1 /\ b = Fin p2 /\ 1 < norm p1 p2)
          (fst (X_ext_source (Fin y1) (Fin y2) (Fin r) true))
          (snd (X_ext_source (Fin y1) (Fin y2) (Fin r) true))
  /\ Forall2 (fun a b => exists m1 m2 : R,
                  a = Fin m1 /\ b = Fin m2 /\ norm m1 m2 < 1)
             (fst (X_ext_source (Fin y1) (Fin y2) (Fin r) false))
             (snd (X_ext_source (Fin y1) (Fin y2) (Fin r) false)).
Proof.
  intros Hr. rewrite !X_ext_source_pointwise. cbn [fst snd].
  split; apply Forall2_map_same; intros phi;
    rewrite boundary_point_Fin; cbn [fst snd];
    pose proof (boundary_point_off_origin y1 y2 r phi Hr) as Hpos;
    set (z1 := y1 + r * cos phi) in *;
    set (z2 := y2 + r * sin phi) in *;
    destruct (sqrt_plus4_bounds (norm z1 z2) Hpos) as (Hss & Hrs & H2s & Hsr);
    cbv zeta in Hss, Hrs, H2s, Hsr.
  - rewrite (X_Fin z1 z2 true Hpos). cbn [fst snd].
    fold (norm z1 z2).
    exists (image_factor (norm z1 z2) true * z1),
           (image_factor (norm z1 z2) true * z2).
    split; [reflexivity |]. split; [reflexivity |].
    pose proof (image_factor_plus_gt1 _ Hpos) as Hk.
    pose proof (image_factor_plus _ Hpos) as Ek.
    rewrite norm_scale by lra. lra.
  - rewrite (X_Fin z1 z2 false Hpos). cbn [fst snd].
    fold (norm z1 z2).
    exists (image_factor (norm z1 z2) false * z1),
           (image_factor (norm z1 z2) false * z2).
    split; [reflexivity |]. split; [reflexivity |].
    pose proof (image_factor_minus_neg _ Hpos) as Hk.
    pose proof (image_factor_minus _ Hpos) as Ek.
    rewrite norm_scale_neg by lra. lra.
Qed.

Lemma X_ext_source_separated_by_unit_circle_witness :
  Forall2 (fun a b => exists p1 p2 : R,
               a = Fin p1 /\ b = Fin p2 /\ 1 < norm p1 p2)
          (fst (X_ext_source (Fin 3) (Fin 4) (Fin 0.05) true))
          (snd (X_ext_source (Fin 3) (Fin 4) (Fin 0.05) true))
  /\ Forall2 (fun a b => exists m1 m2 : R,
                  a = Fin m1 /\ b = Fin m2 /\ norm m1 m2 < 1)
             (fst (X_ext_source (Fin 3) (Fin 4) (Fin 0.05) false))
             (snd (X_ext_source (Fin 3) (Fin 4) (Fin 0.05) false)).
Proof.
  apply (X_ext_source_separated_by_unit_circle 3 4 0.05).
  assert (E5 : norm 3 4 = 5).
  { unfold norm. replace (3 * 3 + 4 * 4) with (5 * 5) by lra.
    apply sqrt_square. lra. }
  rewrite E5. rewrite Rabs_pos_eq; lra.
Defined.

(** ** Reading the parameters *)

(** [ReadParams] succeeds exactly on a document that is an object whose
    members "point source" and "point lens" are objects holding the seven
    keys, and then returns the seven stored values in the order
    (Ds, flux, velocity, mass, Dl, impact parameter, t0).  The values are
    not inspected: whatever is stored (a number or not) is returned. *)
Theorem ReadParams_succeeds_iff
        (s ds s_flux s_vel l_mass dl u0 t0 : pyobj) :
  ReadParams s = Ok (ds, s_flux, s_vel, l_mass, dl, u0, t0)
  <-> exists top ps pl : String.string -> option pyobj,
      s = PDict top
      /\ top "point source"%string = Some (PDict ps)
      /\ top "point lens"%string = Some (PDict pl)
      /\ ps "Ds"%string = Some ds
      /\ ps "flux"%string = Some s_flux
      /\ ps "velocity"%string = Some s_vel
      /\ pl "mass"%string = Some l_mass
      /\ pl "Dl"%string = Some dl
      /\ pl "impact parameter"%string = Some u0
      /\ pl "t0"%string = Some t0.
Proof.
  split.
  - unfold ReadParams, subscript2, subscript, bind.
    destruct s as [x | top |]; try discriminate.
    destruct (top "point source"%string) as [[x | ps |] |] eqn:Es;
      try discriminate.
    destruct (ps "Ds"%string) as [a1 |] eqn:E1; try discriminate.
    destruct (ps "flux"%string) as [a2 |] eqn:E2; try discriminate.
    destruct (ps "velocity"%string) as [a3 |] eqn:E3; try discriminate.
    destruct (top "point lens"%string) as [[x | pl |] |] eqn:El;
      try discriminate.
    destruct (pl "mass"%string) as [a4 |] eqn:E4; try discriminate.
    destruct (pl "Dl"%string) as [a5 |] eqn:E5; try discriminate.
    destruct (pl "impact parameter"%string) as [a6 |] eqn:E6;
      try discriminate.
    destruct (pl "t0"%string) as [a7 |] eqn:E7; try discriminate.
    intros H. injection H as <- <- <- <- <- <- <-.
    exists top, ps, pl. repeat split; assumption.
  - intros (top & ps & pl & -> & Es & El & E1 & E2 & E3 & E4 & E5 & E6 & E7).
    unfold ReadParams, subscript2, subscript, bind.
    rewrite Es, El, E1, E2, E3, E4, E5, E6, E7. reflexivity.
Qed.

(** The only keys [ReadParams] can report as missing are the two section
    names and the seven parameter names, and the section "point source" is
    read first: a document without it fails with that key whatever else it
    holds or lacks.  A document that is not an object fails with
    [TypeError]. *)
Theorem ReadParams_errors (s : pyobj) :
  (forall key, ReadParams s = Raise (KeyError key) ->
               In key ["point source"; "point lens"; "Ds"; "flux";
                       "velocity"; "mass"; "Dl"; "impact parameter";
                       "t0"]%string)
  /\ (forall top, s = PDict top -> top "point source"%string = None ->
                  ReadParams s = Raise (KeyError "point source"))
  /\ ((forall top, s <> PDict top) -> ReadParams s = Raise TypeError).
Proof.
  split; [| split].
  - intros key.
    unfold ReadParams, subscript2, subscript, bind.
    destruct s as [x | top |]; try discriminate.
    destruct (top "point source"%string) as [[x | ps |] |];
      try discriminate;
      [| intros H; injection H as <-; simpl; tauto].
    destruct (ps "Ds"%string) as [a1 |];
      [| intros H; injection H as <-; simpl; tauto].
    destruct (ps "flux"%string) as [a2 |];
      [| intros H; injection H as <-; simpl; tauto].
    destruct (ps "velocity"%string) as [a3 |];
      [| intros H; injection H as <-; simpl; tauto].
    destruct (top "point lens"%string) as [[x | pl |] |];
      try discriminate;
      [| intros H; injection H as <-; simpl; tauto].
    destruct (pl "mass"%string) as [a4 |];
      [| intros H; injection H as <-; simpl; tauto].
    destruct (pl "Dl"%string) as [a5 |];
      [| intros H; injection H as <-; simpl; tauto].
    destruct (pl "impact parameter"%string) as [a6 |];
      [| intros H; injection H as <-; simpl; tauto].
    destruct (pl "t0"%string) as [a7 |];
      [discriminate | intros H; injection H as <-; simpl; tauto].
  - intros top -> Hnone.
    unfold ReadParams, subscript2, subscript, bind.
    rewrite Hnone. reflexivity.
  - intros Hnot. destruct s as [x | top |]; try reflexivity.
    exfalso. apply (Hnot top). reflexivity.
Qed.

Lemma ReadParams_errors_witness :
  In "flux"%string
     ["point source"; "point lens"; "Ds"; "flux"; "velocity"; "mass"; "Dl";
      "impact parameter"; "t0"]%string
  /\ ReadParams (PDict (fun _ => None)) = Raise (KeyError "point source")
  /\ ReadParams (PNum (Fin 1)) = Raise TypeError.
Proof.
  split; [| split].
  - apply (proj1 (ReadParams_errors example_source_without_flux)).
    reflexivity.
  - apply (proj1 (proj2 (ReadParams_errors (PDict (fun _ => None))))
             (fun _ => None)); reflexivity.
  - apply (proj2 (proj2 (ReadParams_errors (PNum (Fin 1))))).
    intros top H. discriminate H.
Defined.

Lemma ReadParams_succeeds_iff_witness :
  ReadParams example_document
  = Ok (PNum (Fin 8), PNum (Fin 1), PNum (Fin 200), PNum (Fin 0.5),
        PNum (Fin 4), PNum (Fin 0.1), PNum (Fin 0)).
Proof.
  apply (proj2 (ReadParams_succeeds_iff
                  example_document
                  (PNum (Fin 8)) (PNum (Fin 1)) (PNum (Fin 200))
                  (PNum (Fin 0.5)) (PNum (Fin 4)) (PNum (Fin 0.1))
                  (PNum (Fin 0)))).
  eexists _, _, _.
  split; [reflexivity |].
  repeat split; reflexivity.
Defined.

(** ** Creating the output directory *)

Lemma CreateDir_loop_undecided (save_dir : String.string)
      (pre rest : list String.string) :
  Forall undecided pre ->
  CreateDir_loop save_dir (pre ++ rest)
  = (repeat (Ask (create_prompt save_dir)) (length pre)
     ++ fst (CreateDir_loop save_dir rest),
     snd (CreateDir_loop save_dir rest)).
Proof.
  intros Hpre. induction Hpre as [| a pre [Hy Hn] _ IH].
  - cbn [app length repeat]. destruct (CreateDir_loop save_dir rest).
    reflexivity.
  - cbn [app CreateDir_loop length repeat].
    apply String.eqb_neq in Hy, Hn. rewrite Hy, Hn, IH. reflexivity.
Qed.

Lemma CreateDir_missing_path_cases (save_dir : String.string)
        (pre rest : list String.string) :
  Forall undecided pre ->
  CreateDir false save_dir (pre ++ "y"%string :: rest)
  = (repeat (Ask (create_prompt save_dir)) (S (length pre))
     ++ [Shell (mkdir_cmd save_dir)],
     Returned rest)
  /\ CreateDir false save_dir (pre ++ "n"%string :: rest)
     = (repeat (Ask (create_prompt save_dir)) (S (length pre))
        ++ [Print "Exit"],
        Returned rest)
  /\ CreateDir false save_dir pre
     = (repeat (Ask (create_prompt save_dir)) (S (length pre)), EOFError).
Proof.
  intros Hpre. unfold CreateDir. cbn [negb].
  assert (Hrep : forall (e : io_event) (n : nat) (tl : list io_event),
             repeat e n ++ e :: tl = repeat e (S n) ++ tl).
  { intros e n tl. induction n as [| n IH]; [reflexivity |].
    cbn [repeat app] in *. rewrite IH. reflexivity. }
  split; [| split].
  - rewrite CreateDir_loop_undecided by exact Hpre.
    cbn [CreateDir_loop String.eqb Ascii.eqb Bool.eqb fst snd].
    rewrite Hrep. reflexivity.
  - rewrite CreateDir_loop_undecided by exact Hpre.
    cbn [CreateDir_loop String.eqb Ascii.eqb Bool.eqb fst snd].
    rewrite Hrep. reflexivity.
  - rewrite <- (app_nil_r pre) at 1.
    rewrite CreateDir_loop_undecided by exact Hpre.
    cbn [CreateDir_loop fst snd].
    rewrite Hrep, app_nil_r. reflexivity.
Qed.

(** When the path does not exist, [CreateDir] asks once for every line it
    reads and re-asks after every line that is neither "y" nor "n".  The
    first line that is "y" makes it run [mkdir -p] and return; the first
    line that is "n" makes it print "Exit" and return without creating
    anything; in both cases the lines after it are left unread.  If the
    input ends before such a line, the last [input] raises [EOFError]
    after one more prompt. *)
Theorem CreateDir_missing_path (save_dir : String.string)
        (pre rest : list String.string) :
  Forall undecided pre ->
  CreateDir false save_dir (pre ++ "y"%string :: rest)
  = (repeat (Ask (create_prompt save_dir)) (S (length pre))
     ++ [Shell (mkdir_cmd save_dir)],
     Returned rest)
  /\ CreateDir false save_dir (pre ++ "n"%string :: rest)
     = (repeat (Ask (create_prompt save_dir)) (S (length pre))
        ++ [Print "Exit"],
        Returned rest)
  /\ CreateDir false save_dir pre
     = (repeat (Ask (create_prompt save_dir)) (S (length pre)), EOFError).
Proof. apply CreateDir_missing_path_cases. Qed.

Lemma CreateDir_missing_path_witness :
  CreateDir false "images" ["Y"; "yes"; "y"; "n"]%string
  = (repeat (Ask (create_prompt "images")) 3
     ++ [Shell (mkdir_cmd "images")],
     Returned ["n"%string])
  /\ CreateDir false "images" ["Y"; "yes"; "n"; "y"]%string
     = (repeat (Ask (create_prompt "images")) 3 ++ [Print "Exit"],
        Returned ["y"%string])
  /\ CreateDir false "images" ["Y"; "yes"]%string
     = (repeat (Ask (create_prompt "images")) 3, EOFError).
Proof.
  assert (H : Forall undecided ["Y"; "yes"]%string).
  { repeat constructor; discriminate. }
  destruct (CreateDir_missing_path "images"
              ["Y"; "yes"]%string ["n"%string] H) as (Hy & _ & He).
  destruct (CreateDir_missing_path "images"
              ["Y"; "yes"]%string ["y"%string] H) as (_ & Hn & _).
  split; [exact Hy | split; [exact Hn | exact He]].
Defined.

Lemma CreateDir_loop_shell (save_dir : String.string)
      (answers : list String.string) (cmd : String.string) :
  In (Shell cmd) (fst (CreateDir_loop save_dir answers)) ->
  cmd = mkdir_cmd save_dir
  /\ exists pre rest,
      answers = pre ++ "y"%string :: rest
      /\ Forall undecided pre
      /\ snd (CreateDir_loop save_dir answers) = Returned rest.
Proof.
  induction answers as [| a answers IH]; cbn [CreateDir_loop].
  - cbn [fst In]. intros [H | []]. discriminate H.
  - destruct (String.eqb a "y") eqn:Ey.
    + apply String.eqb_eq in Ey. subst a. cbn [fst snd In].
      intros [H | [H | []]]; [discriminate H |].
      injection H as <-. split; [reflexivity |].
      exists [], answers. repeat split. constructor.
    + destruct (String.eqb a "n") eqn:En.
      * cbn [fst In]. intros [H | [H | []]]; discriminate H.
      * destruct (CreateDir_loop save_dir answers) as [ev e] eqn:El.
        cbn [fst snd In] in *. intros [H | H]; [discriminate H |].
        destruct (IH H) as (Hc & pre & rest & -> & Hpre & He).
        split; [exact Hc |].
        exists (a :: pre), rest. repeat split; try assumption.
        constructor; [| exact Hpre].
        apply String.eqb_neq in Ey, En. split; assumption.
Qed.

(** [CreateDir] never runs a shell command other than [mkdir -p] of the
    directory it was given, and runs it only when the path does not exist
    and the user typed "y" with nothing but lines other than "y" and "n"
    before it.  In particular it touches nothing when the path exists and
    nothing after an "n". *)
Theorem CreateDir_only_creates_on_yes (path_exists : bool)
        (save_dir cmd : String.string) (answers : list String.string) :
  In (Shell cmd) (fst (CreateDir path_exists save_dir answers)) ->
  path_exists = false
  /\ cmd = mkdir_cmd save_dir
  /\ exists pre rest,
      answers = pre ++ "y"%string :: rest
      /\ Forall undecided pre
      /\ snd (CreateDir path_exists save_dir answers) = Returned rest.
Proof.
  unfold CreateDir. destruct path_exists; cbn [negb fst snd].
  - intros [].
  - intros H. split; [reflexivity |].
    apply CreateDir_loop_shell. exact H.
Qed.

Lemma CreateDir_only_creates_on_yes_witness :
  false = false
  /\ mkdir_cmd "images" = mkdir_cmd "images"
  /\ exists pre rest,
      ["no"; "y"]%string = pre ++ "y"%string :: rest
      /\ Forall undecided pre
      /\ snd (CreateDir false "images" ["no"; "y"]%string) = Returned rest.
Proof.
  apply (CreateDir_only_creates_on_yes
           false "images" (mkdir_cmd "images") ["no"; "y"]%string).
  cbn. right. right. left. reflexivity.
Defined.

(** ** The plotting part of [run] *)

Lemma existsb_repeat_Ask (prompt : String.string) (n : nat) :
  existsb is_shell (repeat (Ask prompt) n) = false.
Proof. induction n as [| n IH]; [reflexivity | exact IH]. Qed.

Lemma frame_loop_ok (t0 tE y0 s_flux : npfloat) :
  exists first rest,
    frame_loop t0 tE y0 s_flux 0
               (map (fun g => t0 + Fin g * tE)%np (linspace (-2) 2 100))
    = first :: rest
    /\ f_n first = 1%nat
    /\ frames_ok t0 tE (first :: rest).
Proof.
  set (ts := map (fun g => t0 + Fin g * tE)%np (linspace (-2) 2 100)).
  assert (Hlen : length ts = 100%nat)
    by (subst ts; rewrite length_map; apply linspace_length).
  destruct (frame_loop_numbers t0 tE y0 s_flux 0 ts) as (Hn & Ht & Hp).
  rewrite Hlen in Hn, Hp.
  destruct (frame_loop t0 tE y0 s_flux 0 ts) as [| first rest] eqn:E.
  - discriminate Hn.
  - exists first, rest. split; [reflexivity |].
    split; [injection Hn as H1 _; exact H1 |].
    unfold frames_ok. split; [| split; [| split]]; try assumption.
    rewrite <- (length_map f_n), Hn. apply length_seq.
Qed.

(** The plotting part of [run], whatever the parameters (valid or not).
    When the directory [images] exists, or the user answers "y" and the
    shell creates it, [Plot] is called exactly 100 times, with the frame
    numbers 1 to 100 in this order, the k-th call for the k-th time
    t0 + g_k * tE of the sparse grid and the file 'images/{:03d}.png' of
    its number.  When the directory is missing and the user answers "n",
    the run goes on without it and the save of frame 1 fails: no frame is
    saved.  When the input ends before an answer, [CreateDir] raises
    [EOFError] and no frame is computed. *)
Theorem run_frames_numbering (G c M_sun kpc_m : R)
        (ds s_flux s_vel l_mass dl y0 t0 : npfloat) (mkdir_ok : bool)
        (answers pre rest : list String.string) :
  Forall undecided pre ->
  let tE := EinsteinCrossTime kpc_m
              (EinsteinRadius G c M_sun kpc_m l_mass ds dl) dl s_vel in
  let plot := run_frames G c M_sun kpc_m ds s_flux s_vel l_mass dl y0 t0 in
  (exists frames,
      plot true mkdir_ok answers = AllPlotted frames
      /\ frames_ok t0 tE frames)
  /\ (exists frames,
         plot false true (pre ++ "y"%string :: rest) = AllPlotted frames
         /\ frames_ok t0 tE frames)
  /\ (exists first,
         plot false mkdir_ok (pre ++ "n"%string :: rest) = SaveFailed first
         /\ f_n first = 1%nat)
  /\ plot false mkdir_ok pre = InputEnded.
Proof.
  intros Hpre tE plot. subst plot. unfold run_frames. cbv zeta. fold tE.
  destruct (frame_loop_ok t0 tE y0 s_flux) as (first & tl & E & H1 & Hok).
  destruct (CreateDir_missing_path_cases "images" pre rest Hpre)
    as (Hy & Hn & He).
  split; [| split; [| split]].
  - exists (first :: tl). split; [| exact Hok].
    unfold CreateDir. cbn [negb]. rewrite E. reflexivity.
  - exists (first :: tl). split; [| exact Hok].
    rewrite Hy, E.
    rewrite existsb_app. cbn [existsb is_shell].
    rewrite Bool.orb_true_r. reflexivity.
  - exists first. split; [| exact H1].
    rewrite Hn, E.
    rewrite existsb_app. cbn [existsb is_shell orb andb].
    rewrite existsb_repeat_Ask. reflexivity.
  - rewrite He. reflexivity.
Qed.

Lemma run_frames_numbering_witness :
  let tE := EinsteinCrossTime Astropy.kpc_m
              (EinsteinRadius Astropy.G Astropy.c Astropy.M_sun
                              Astropy.kpc_m (Fin 0.5) (Fin 8) (Fin 4))
              (Fin 4) (Fin 200) in
  let plot := run_frames Astropy.G Astropy.c Astropy.M_sun Astropy.kpc_m
                         (Fin 8) (Fin 1) (Fin 200) (Fin 0.5) (Fin 4)
                         (Fin 0.1) (Fin 0) in
  (exists frames,
      plot true true [] = AllPlotted frames
      /\ frames_ok (Fin 0) tE frames)
  /\ (exists frames,
         plot false true (["yes"%string] ++ "y"%string :: [])
         = AllPlotted frames
         /\ frames_ok (Fin 0) tE frames)
  /\ (exists first,
         plot false true (["yes"%string] ++ "n"%string :: [])
         = SaveFailed first
         /\ f_n first = 1%nat)
  /\ plot false true ["yes"%string] = InputEnded.
Proof.
  apply (run_frames_numbering
           Astropy.G Astropy.c Astropy.M_sun Astropy.kpc_m
           (Fin 8) (Fin 1) (Fin 200) (Fin 0.5) (Fin 4) (Fin 0.1) (Fin 0)
           true [] ["yes"%string] []).
  repeat constructor; discriminate.
Defined.
